(** * Card index of src/main.py: build_index_inline and identify_first_image_inline

    The build reads the catalog CSV, embeds every existing image with the
    CLIP encoder, normalizes the embedding, and persists three artifacts:
    ids.npy (ordered card ids), id_to_meta.json (id -> card fields) and
    embeddings.faiss (a faiss.IndexFlatIP holding the vectors).  The identify
    path loads those artifacts, embeds the first catalog image and prints the
    top-k rows returned by the FAISS index. *)

From Stdlib Require Import String List ZArith QArith Qround Bool Sorting Lia.
From Stdlib Require Import Qpower Reals Psatz Permutation.
Import ListNotations.

Open Scope Z_scope.

(** ** Results: a small error monad for Python exceptions *)

Inductive result (E A : Type) : Type :=
| Ok (a : A)
| Err (e : E).
Arguments Ok {E A} a.
Arguments Err {E A} e.

Definition bind {E A B} (m : result E A) (k : A -> result E B) : result E B :=
  match m with Ok a => k a | Err e => Err e end.

Notation "x <- m ;; k" := (bind m (fun x => k))
  (at level 61, m at next level, right associativity).

(** ** float32 arithmetic on the finite, normal range

    A float32 value is a rational [m * 2^e] with [|m| < 2^24].  [f32_round]
    is IEEE round-to-nearest-even to 24 significant bits (overflow and
    subnormals are outside what the files below need). *)

Definition pow2 (e : Z) : Q :=
  if 0 <=? e then inject_Z (2 ^ e) else 1 # Z.to_pos (2 ^ (- e)).

(** nearest integer to [n / d], ties to even ([n >= 0], [d > 0]) *)
Definition round_ne_div (n d : Z) : Z :=
  let q := n / d in
  let r := n mod d in
  match Z.compare (2 * r) d with
  | Lt => q
  | Gt => q + 1
  | Eq => if Z.even q then q else q + 1
  end.

Definition f32_scale (n d e : Z) : Z * Z :=
  if 0 <=? e then (n, d * 2 ^ e) else (n * 2 ^ (- e), d).

Definition f32_round (x : Q) : Q :=
  let n := Z.abs (Qnum x) in
  let d := Zpos (Qden x) in
  if n =? 0 then 0%Q else
  let e0 := Z.log2 n - Z.log2 d - 23 in
  let e := let '(a, b) := f32_scale n d e0 in
           if a <? 2 ^ 23 * b then e0 - 1 else e0 in
  let '(a, b) := f32_scale n d e in
  let r := (inject_Z (round_ne_div a b) * pow2 e)%Q in
  if Qnum x <? 0 then (- r)%Q else r.

(** correctly rounded square root of a non-negative float32 *)
Definition f32_sqrt (x : Q) : Q :=
  let n := Z.abs (Qnum x) in
  let d := Zpos (Qden x) in
  if n =? 0 then 0%Q else
  let sc e := if e <=? 0 then (n * 4 ^ (- e), d) else (n, d * 4 ^ e) in
  let e0 := (Z.log2 n - Z.log2 d) / 2 - 23 in
  let e := let '(a, b) := sc e0 in
           if Z.sqrt (a / b) <? 2 ^ 23 then e0 - 1 else e0 in
  let '(a, b) := sc e in
  let m := Z.sqrt (a / b) in
  let t := (2 * m + 1) * (2 * m + 1) * b in
  let m' := match Z.compare (4 * a) t with
            | Lt => m
            | Gt => m + 1
            | Eq => if Z.even m then m else m + 1
            end in
  (inject_Z m' * pow2 e)%Q.

(** strict order test on scores *)
Definition Qltb (x y : Q) : bool := negb (Qle_bool y x).

Definition f32_add (x y : Q) : Q := f32_round (x + y).
Definition f32_mul (x y : Q) : Q := f32_round (x * y).
Definition f32_div (x y : Q) : Q := f32_round (x / y).

(** FAISS [fvec_inner_product]: [res += x[i] * y[i]] over the common length *)
Fixpoint f32_dot_acc (acc : Q) (x y : list Q) : Q :=
  match x, y with
  | a :: x', b :: y' => f32_dot_acc (f32_add acc (f32_mul a b)) x' y'
  | _, _ => acc
  end.

Definition f32_dot (x y : list Q) : Q := f32_dot_acc 0 x y.

(** torch: [z = z / z.norm(dim=-1, keepdim=True)] in float32 *)
Definition f32_normalize (z : list Q) : list Q :=
  let nrm := f32_sqrt (f32_dot z z) in
  map (fun a => f32_div a nrm) z.


(** ** FAISS [IndexFlatIP.search] for one query

    [index.search(qvec, topk)] goes through faiss' Python wrapper, which
    asserts [k > 0] (see identify_first_image_inline below), to the
    exhaustive inner-product search ([knn_inner_product], sequential path
    for a single query).  For [1 < k < 100] its result handler is a heap of
    [k] (score, label) slots, initialised to the sentinel [(-FLT_MAX, -1)]
    and ordered by [CMin::cmp2], i.e. by the pair (score, label): its top
    is the smallest pair.  Each stored vector [i], scanned in insertion
    order, replaces the top when [C::cmp(threshold, dis)] holds, i.e. when
    its score is strictly greater than the smallest score of the heap;
    [heap_reorder] finally lists the slots from the greatest pair to the
    smallest, so that of two equal scores the larger label comes first.
    The buffer below is that heap kept in its final order: the top is the
    last slot, and a new slot is inserted at its place.  For [k = 1] faiss
    uses [Top1BlockResultHandler], which keeps the first vector of strictly
    greatest score, as this buffer of one slot does.  For [k >= 100] faiss
    uses [ReservoirBlockResultHandler], which keeps another subset of the
    vectors tied at the cut-off score; statements that depend on ties take
    [k < 100].  Scores are the float32 values returned by [ip] (finite, so
    a rational); both arrays D[0] and I[0] always have length [k]. *)

Module Faiss.

Definition flt_max : Q := inject_Z ((2 ^ 24 - 1) * 2 ^ 104).

(** [C::neutral()] for the inner-product metric *)
Definition neutral : Q := (- flt_max)%Q.

Definition slot : Type := (Z * Q)%type.   (* (label, score) *)

(** [CMin::cmp2]: the pair (score, label) of [a] is smaller than the one of [b] *)
Definition lex_lt (a b : slot) : bool :=
  Qltb (snd a) (snd b) || (Qeq_bool (snd a) (snd b) && (fst a <? fst b)).

(** place a slot in a list ordered from the greatest pair to the smallest *)
Fixpoint insert_slot (x : slot) (l : list slot) : list slot :=
  match l with
  | [] => [x]
  | y :: l' => if lex_lt y x then x :: l else y :: insert_slot x l'
  end.

(** the heap top: the smallest pair *)
Definition worst (l : list slot) : option slot := last (map Some l) None.

(** [if (C::cmp(threshold, dis)) heap_replace_top(...)] *)
Definition push (buf : list slot) (x : slot) : list slot :=
  match worst buf with
  | Some w => if Qltb (snd w) (snd x) then insert_slot x (removelast buf) else buf
  | None => buf
  end.

Section Search.
Variable V : Type.
Variable ip : V -> V -> Q.

Fixpoint scan (q : V) (i : Z) (xb : list V) (buf : list slot) : list slot :=
  match xb with
  | [] => buf
  | x :: xb' => scan q (i + 1) xb' (push buf (i, ip q x))
  end.

(** [D, I = index.search(qvec, k)]; the pairs are [(I[0][j], D[0][j])] *)
Definition search (xb : list V) (q : V) (k : nat) : list slot :=
  scan q 0 xb (repeat ((-1)%Z, neutral) k).

End Search.

End Faiss.

(** scores in lowest terms, to compare results with [=] *)
Definition reduce_slots (l : list Faiss.slot) : list Faiss.slot :=
  map (fun s => (fst s, Qred (snd s))) l.


(** ** Python strings

    A Python [str] is its list of code points; the development covers the
    code points below 256 (Latin-1), each one an [Ascii.ascii].  In that
    range [str.isdigit] holds for '0'..'9' and for the superscripts
    '²', '³', '¹' (Unicode digits that are not decimal), and [int()]
    accepts only '0'..'9'. *)

Definition is_decimal (c : Ascii.ascii) : bool :=
  let n := Ascii.nat_of_ascii c in (48 <=? n)%nat && (n <=? 57)%nat.

Definition is_digit (c : Ascii.ascii) : bool :=
  let n := Ascii.nat_of_ascii c in
  is_decimal c || (n =? 178)%nat || (n =? 179)%nat || (n =? 185)%nat.

(** Python [str.isdigit] *)
Definition isdigit (s : string) : bool :=
  negb (String.eqb s EmptyString) && forallb is_digit (list_ascii_of_string s).

(** the value of a string of decimal digits *)
Definition int_of_digits (s : string) : nat :=
  fold_left (fun acc c => acc * 10 + (Ascii.nat_of_ascii c - 48))%nat
            (list_ascii_of_string s) 0%nat.

(** Python [int(s)] on a string that passes [isdigit]: [None] is the
    ValueError raised by a digit that is not decimal *)
Definition py_int (s : string) : option nat :=
  if forallb is_decimal (list_ascii_of_string s) then Some (int_of_digits s) else None.

Definition slash : Ascii.ascii := Ascii.ascii_of_nat 47.
Definition dot : Ascii.ascii := Ascii.ascii_of_nat 46.

(** the text between the slashes of a path *)
Fixpoint path_parts (cs cur : list Ascii.ascii) : list (list Ascii.ascii) :=
  match cs with
  | [] => [rev cur]
  | c :: cs' => if Ascii.eqb c slash then rev cur :: path_parts cs' [] else path_parts cs' (c :: cur)
  end.

(** the root of a POSIX path: exactly two leading slashes are kept, one or
    three and more give one *)
Definition path_root (cs : list Ascii.ascii) : list Ascii.ascii :=
  match cs with
  | a :: b :: rest =>
      if Ascii.eqb a slash then
        if Ascii.eqb b slash then
          match rest with
          | c :: _ => if Ascii.eqb c slash then [slash] else [slash; slash]
          | [] => [slash; slash]
          end
        else [slash]
      else []
  | [a] => if Ascii.eqb a slash then [slash] else []
  | [] => []
  end.

Fixpoint join_parts (ps : list (list Ascii.ascii)) : list Ascii.ascii :=
  match ps with
  | [] => []
  | [p] => p
  | p :: ps' => app p (slash :: join_parts ps')
  end.

(** a component pathlib keeps: not empty, not "." *)
Definition kept_part (p : list Ascii.ascii) : bool :=
  match p with
  | [] => false
  | [c] => negb (Ascii.eqb c dot)
  | _ => true
  end.

(** [str(pathlib.Path(s))] on POSIX: repeated slashes and "." components
    dropped, no trailing slash, "." for the empty path *)
Definition pathlib_str (s : string) : string :=
  let cs := list_ascii_of_string s in
  match app (path_root cs) (join_parts (filter kept_part (path_parts cs []))) with
  | [] => "."
  | out => string_of_list_ascii out
  end.


(** ** Catalog rows, card metadata and the file system *)

(** one row of [pd.read_csv(CSV_PATH)]; every field is [str(cell)] of the
    value pandas parsed (a cell pandas reads as a number gives the text of
    that number, e.g. "70" or "70.0") *)
Record Row : Type := {
  row_id : string;
  row_name : string;
  row_set : string;
  row_number : string;
  row_hp : string;
  row_image_path : string
}.

(** [img_path = pathlib.Path(str(row["image_path"]))], as a string *)
Definition img_path (r : Row) : string := pathlib_str (row_image_path r).

(** the value stored in [meta[cid]] *)
Record CardMeta : Type := {
  meta_name : string;
  meta_set : string;
  meta_number : string;
  meta_hp : option nat;
  meta_image_path : string
}.

(** a JSON document as [json.loads] returns it; an object is the dict it
    builds (one entry per key, in order of first appearance) *)
Set Warnings "-register-all".
Inductive json : Type :=
| JNull
| JBool (b : bool)
| JInt (z : Z)
| JFloat (lit : string)
| JStr (s : string)
| JArr (l : list json)
| JObj (l : list (string * json)).

(** the JSON object [json.dump] writes for [meta[cid]] *)
Definition meta_json (c : CardMeta) : json :=
  JObj [("name"%string, JStr (meta_name c)); ("set"%string, JStr (meta_set c));
        ("number"%string, JStr (meta_number c));
        ("hp"%string, match meta_hp c with Some n => JInt (Z.of_nat n) | None => JNull end);
        ("image_path"%string, JStr (meta_image_path c))].

Definition metas_json (d : list (string * CardMeta)) : json :=
  JObj (map (fun e => (fst e, meta_json (snd e))) d).

(** Python dict assignment [d[k] = v]: a present key keeps its place and
    gets the new value, a new key goes last (insertion order is what
    json.dump writes). *)
Fixpoint dict_set {A} (k : string) (v : A) (d : list (string * A)) : list (string * A) :=
  match d with
  | [] => [(k, v)]
  | (k', v') :: d' => if String.eqb k k' then (k, v) :: d' else (k', v') :: dict_set k v d'
  end.

(** Python [d[k]] *)
Fixpoint dict_get {A} (k : string) (d : list (string * A)) : option A :=
  match d with
  | [] => None
  | (k', v) :: d' => if String.eqb k k' then Some v else dict_get k d'
  end.

(** numpy indexing [a[i]] of a 1-d array, negative indices counted from the end *)
Definition np_index {A} (a : list A) (i : Z) : option A :=
  let n := Z.of_nat (length a) in
  if (0 <=? i) && (i <? n) then nth_error a (Z.to_nat i)
  else if (- n <=? i) && (i <? 0) then nth_error a (Z.to_nat (n + i))
  else None.

(** What a path holds, as the readers of main.py see it.  Each reader accepts
    only its own format: [pd.read_csv] a CSV with the six columns,
    [Image.open(..).convert("RGB")] a decodable image, [np.load] the .npy
    array of ids [np.save] wrote, [json.loads] a JSON text, and
    [faiss.read_index] a FAISS index.  [JsonFile] is the text json.dump
    writes for a dict of card records, [JsonDoc] any other JSON text, and
    [OtherFile] content none of the readers accepts (a truncated download,
    stray text). *)
Inductive file (V : Type) : Type :=
| CsvFile (rows : list Row)
| ImageFile (pixels : list Z)
| NpyFile (ids : list string)
| JsonFile (meta : list (string * CardMeta))
| JsonDoc (j : json)
| FaissFile (vecs : list V)
| OtherFile (bytes : string)
| Directory.
Arguments CsvFile {V} rows.
Arguments ImageFile {V} pixels.
Arguments NpyFile {V} ids.
Arguments JsonFile {V} meta.
Arguments JsonDoc {V} j.
Arguments FaissFile {V} vecs.
Arguments OtherFile {V} bytes.
Arguments Directory {V}.

(** a file system: the file at each path, paths spelled as pathlib prints them *)
Definition fs (V : Type) : Type := string -> option (file V).

Definition fs_write {V} (m : fs V) (p : string) (f : file V) : fs V :=
  fun p' => if String.eqb p' p then Some f else m p'.

Definition CSV_PATH : string := "data/catalog/cards.csv".
Definition FAISS_PATH : string := "data/catalog/embeddings.faiss".
Definition IDS_NPY : string := "data/catalog/ids.npy".
Definition META_JSON : string := "data/catalog/id_to_meta.json".

(** exceptions raised by the two functions *)
Inductive PyError : Type :=
| FileNotFoundError (p : string)
| IsADirError (p : string)      (* IsADirectoryError *)
| CsvReadError                  (* pandas: no CSV with those columns *)
| AssertNoRows                  (* assert len(df) > 0 *)
| ImageOpenError (p : string)   (* PIL.UnidentifiedImageError *)
| ValueError (s : string)       (* int(s) *)
| AssertNoVectors               (* assert vecs, "No vectors built ..." *)
| IndexWriteError               (* faiss.write_index: RuntimeError *)
| IndexReadError                (* faiss.read_index: RuntimeError *)
| IdsLoadError                  (* np.load: not an .npy array *)
| JSONDecodeError               (* json.loads, or the UTF-8 decoding before it *)
| AssertTopk                    (* assert k > 0 in faiss' Python search *)
| IndexError (i : Z)
| KeyError (k : string)
| TypeError.

(** [int(row["hp"]) if str(row.get("hp","")).isdigit() else None]; when
    [str(cell)] passes isdigit the cell is that string or an integer
    printed as it, so [int(row["hp"])] is [int(str(cell))] *)
Definition row_hp_value (s : string) : result PyError (option nat) :=
  if isdigit s then
    match py_int s with Some n => Ok (Some n) | None => Err (ValueError s) end
  else Ok None.

(** [meta[cid] = {...}] in build_index_inline *)
Definition row_meta (r : Row) : result PyError CardMeta :=
  hp <- row_hp_value (row_hp r) ;;
  Ok {| meta_name := row_name r;
        meta_set := row_set r;
        meta_number := row_number r;
        meta_hp := hp;
        meta_image_path := img_path r |}.

(** ** build_index_inline and identify_first_image_inline

    The CLIP model is loaded by [open_clip.create_model_and_transforms] and
    applied by [model.encode_image]; both are taken to return (the encoder
    is a function), so a failed weight download or an out-of-memory error
    is not part of the model.  An exception ends the run: the error result
    does not carry the disk, on which the writes done before it stay.
    Errors of the operating system other than a directory in the way
    (permissions, a full disk) are not modelled. *)

Section Pipeline.
Variable V : Type.
(** [model.encode_image(preprocess(img))]: the embedding generator *)
Variable encode : list Z -> V.
(** [z / z.norm(dim=-1, keepdim=True)] *)
Variable normalize : V -> V.
(** FAISS inner product between the query and a stored vector *)
Variable ip : V -> V -> Q.

Definition read_csv (m : fs V) : result PyError (list Row) :=
  match m CSV_PATH with
  | Some (CsvFile rows) => Ok rows
  | None => Err (FileNotFoundError CSV_PATH)
  | Some Directory => Err (IsADirError CSV_PATH)
  | Some _ => Err CsvReadError
  end.

(** the lists [ids, vecs], the dict [meta] and the printed skip lines *)
Record Acc : Type := {
  acc_ids : list string;
  acc_vecs : list V;
  acc_meta : list (string * CardMeta);
  acc_log : list string
}.

Definition acc0 : Acc := Build_Acc [] [] [] [].

(** [print("[skip] missing:", img_path)] *)
Definition skip_line (p : string) : string := "[skip] missing: " ++ p.

(** [Image.open(img_path)] on a path that exists *)
Definition open_error (f : file V) (p : string) : PyError :=
  match f with Directory => IsADirError p | _ => ImageOpenError p end.

(** the [for _, row in df.iterrows()] loop *)
Fixpoint build_rows (m : fs V) (rows : list Row) (acc : Acc) : result PyError Acc :=
  match rows with
  | [] => Ok acc
  | r :: rows' =>
      let cid := row_id r in
      let p := img_path r in
      match m p with
      | None =>
          build_rows m rows'
            (Build_Acc (acc_ids acc) (acc_vecs acc) (acc_meta acc)
                       (acc_log acc ++ [skip_line p]))
      | Some (ImageFile px) =>
          let vec := normalize (encode px) in
          mt <- row_meta r ;;
          build_rows m rows'
            (Build_Acc (acc_ids acc ++ [cid]) (acc_vecs acc ++ [vec])
                       (dict_set cid mt (acc_meta acc)) (acc_log acc))
      | Some f => Err (open_error f p)
      end
  end.

(** what one successful build persists, plus its log *)
Record BuildOut : Type := {
  out_ids : list string;
  out_meta : list (string * CardMeta);
  out_vecs : list V;
  out_log : list string
}.

(** writing a whole file at [p]: [np.save], [open(p, "w")] or
    [faiss.write_index] raise [e] when [p] is a directory *)
Definition save_file (m : fs V) (p : string) (f : file V) (e : PyError) : result PyError (fs V) :=
  match m p with
  | Some Directory => Err e
  | _ => Ok (fs_write m p f)
  end.

Definition build_index_inline (m : fs V) : result PyError (fs V * BuildOut) :=
  df <- read_csv m ;;
  if (length df =? 0)%nat then Err AssertNoRows else
  acc <- build_rows m df acc0 ;;
  match acc_vecs acc with
  | [] => Err AssertNoVectors
  | _ =>
      m1 <- save_file m IDS_NPY (NpyFile (acc_ids acc)) (IsADirError IDS_NPY) ;;
      m2 <- save_file m1 META_JSON (JsonFile (acc_meta acc)) (IsADirError META_JSON) ;;
      m3 <- save_file m2 FAISS_PATH (FaissFile (acc_vecs acc)) IndexWriteError ;;
      Ok (m3, Build_BuildOut (acc_ids acc) (acc_meta acc) (acc_vecs acc) (acc_log acc))
  end.

(** [faiss.read_index], [np.load], [json.loads(open(META_JSON).read())] *)
Definition load_artifacts (m : fs V) : result PyError (list V * list string * json) :=
  xb <- match m FAISS_PATH with
        | Some (FaissFile xb) => Ok xb
        | _ => Err IndexReadError
        end ;;
  ids <- match m IDS_NPY with
         | Some (NpyFile ids) => Ok ids
         | None => Err (FileNotFoundError IDS_NPY)
         | Some Directory => Err (IsADirError IDS_NPY)
         | Some _ => Err IdsLoadError
         end ;;
  meta <- match m META_JSON with
          | Some (JsonFile meta) => Ok (metas_json meta)
          | Some (JsonDoc j) => Ok j
          | None => Err (FileNotFoundError META_JSON)
          | Some Directory => Err (IsADirError META_JSON)
          | Some _ => Err JSONDecodeError
          end ;;
  Ok (xb, ids, meta).

(** [qvec] of identify_first_image_inline *)
Definition query_vector (m : fs V) (p : string) : result PyError V :=
  match m p with
  | Some (ImageFile px) => Ok (normalize (encode px))
  | None => Err (FileNotFoundError p)
  | Some f => Err (open_error f p)
  end.

(** Python [d[k]] on a JSON value: a dict looks the key up, any other
    value raises TypeError *)
Definition py_getitem (d : json) (k : string) : result PyError json :=
  match d with
  | JObj l => match dict_get k l with Some v => Ok v | None => Err (KeyError k) end
  | _ => Err TypeError
  end.

(** [format(v, "<30")]: None, a list and a dict raise TypeError *)
Definition formats_aligned (v : json) : bool :=
  match v with JNull | JArr _ | JObj _ => false | _ => true end.

(** [for d, idx in zip(D, I): cid = ids[idx]; m = meta[cid]; print(...)]:
    the printed line reads [m['name']] with format "<30", then
    [m.get('set','')] and [m.get('number','')] of the dict [m] *)
Fixpoint print_rows (ids : list string) (meta : json)
         (res : list Faiss.slot) : result PyError (list (string * json * Q)) :=
  match res with
  | [] => Ok []
  | (idx, d) :: res' =>
      match np_index ids idx with
      | None => Err (IndexError idx)
      | Some cid =>
          mt <- py_getitem meta cid ;;
          name <- py_getitem mt "name" ;;
          if formats_aligned name
          then rest <- print_rows ids meta res' ;; Ok ((cid, mt, d) :: rest)
          else Err TypeError
      end
  end.

(** [img_path = pathlib.Path(df.iloc[0]["image_path"])]: for a cell pandas
    reads as a string this is [img_path] of the first row *)
Definition identify_first_image_inline (m : fs V) (topk : nat)
  : result PyError (list (string * json * Q)) :=
  df <- read_csv m ;;
  match df with
  | [] => Err AssertNoRows
  | r0 :: _ =>
      art <- load_artifacts m ;;
      let '(xb, ids, meta) := art in
      qvec <- query_vector m (img_path r0) ;;
      if (topk =? 0)%nat then Err AssertTopk else
      print_rows ids meta (Faiss.search V ip xb qvec topk)
  end.

End Pipeline.

Arguments read_csv {V} m.
Arguments open_error {V} f p.
Arguments build_rows {V} encode normalize m rows acc.
Arguments save_file {V} m p f e.
Arguments build_index_inline {V} encode normalize m.
Arguments load_artifacts {V} m.
Arguments query_vector {V} encode normalize m p.
Arguments identify_first_image_inline {V} encode normalize ip m topk.

(** ** A concrete two-card catalog in float32

    The encoder is a stand-in returning the pixel list as the raw embedding;
    normalization and inner products are computed in float32. *)

Definition enc32 (px : list Z) : list Q := map inject_Z px.

Definition fs_empty {V} : fs V := fun _ => None.

Definition path_a : string := "data/catalog/images/sv3/1.jpg".
Definition path_b : string := "data/catalog/images/sv3/2.jpg".

Definition row_a : Row := {|
  row_id := "sv3-1"; row_name := "Bulbasaur"; row_set := "sv3";
  row_number := "1"; row_hp := "70"; row_image_path := path_a |}.

Definition row_b : Row := {|
  row_id := "sv3-2"; row_name := "Ivysaur"; row_set := "sv3";
  row_number := "2"; row_hp := "90"; row_image_path := path_b |}.

Definition demo_fs : fs (list Q) :=
  fs_write (fs_write (fs_write fs_empty CSV_PATH (CsvFile [row_a; row_b]))
                     path_a (ImageFile [1; 0])) path_b (ImageFile [0; 1]).

(** the file system after [build_index_inline] on [demo_fs] *)
Definition demo_built : fs (list Q) :=
  match build_index_inline enc32 f32_normalize demo_fs with
  | Ok (m, _) => m
  | Err _ => demo_fs
  end.

(** ** The normalization in exact real arithmetic *)

Definition sumsq_R (z : list R) : R := fold_right (fun a acc => (a * a + acc)%R) 0%R z.

(** [z / z.norm(dim=-1, keepdim=True)] over the reals *)
Definition normalize_R (z : list R) : list R :=
  map (fun a => (a / sqrt (sumsq_R z))%R) z.

(** ** Writing id_to_meta.json

    [with open(META_JSON, "w") as f: json.dump(meta, f, ...)]: opening with
    mode "w" truncates the file at once; json.dump then hands the encoded
    text to [f.write] piece by piece and the file object passes it on to the
    file in blocks, the last one at close.  [blocks] are those blocks in
    order; their concatenation is the JSON text. *)

Module Disk.

Definition disk : Type := string -> option string.

Inductive op : Type :=
| OpenTrunc (p : string)
| WriteBlock (p : string) (s : string).

Definition upd (d : disk) (p : string) (s : string) : disk :=
  fun p' => if String.eqb p' p then Some s else d p'.

Definition apply_op (d : disk) (o : op) : disk :=
  match o with
  | OpenTrunc p => upd d p EmptyString
  | WriteBlock p s => upd d p (match d p with Some t => t ++ s | None => s end)
  end.

Definition json_dump_ops (p : string) (blocks : list string) : list op :=
  OpenTrunc p :: map (WriteBlock p) blocks.

Definition run (d : disk) (ops : list op) : disk := fold_left apply_op ops d.

(** what a reader finds after the writer stopped once [n] steps were done *)
Definition crash_after (n : nat) (d : disk) (ops : list op) : disk :=
  run d (firstn n ops).

End Disk.

(** ** More concrete catalogs *)

Definition path_c : string := "data/catalog/images/sv3pt5/1.jpg".

(** the id of [row_a] again, on a second row with its own existing image *)
Definition row_a2 : Row := {|
  row_id := "sv3-1"; row_name := "Bulbasaur"; row_set := "sv3pt5";
  row_number := "1"; row_hp := "70"; row_image_path := path_c |}.

Definition dup_fs : fs (list Q) :=
  fs_write (fs_write (fs_write fs_empty CSV_PATH (CsvFile [row_a; row_a2]))
                     path_a (ImageFile [1; 0])) path_c (ImageFile [0; 1]).

(** the persisted output of [build_index_inline] on [demo_fs] *)
Definition demo_out : BuildOut (list Q) :=
  match build_index_inline enc32 f32_normalize demo_fs with
  | Ok (_, o) => o
  | Err _ => Build_BuildOut _ [] [] [] []
  end.


(** a stored vector [(1, 2^-13)] and the unit vector [(1, 0)] behind it *)
Definition near_w : list Q := [1; 1 # 8192]%Q.
Definition near_v : list Q := [1; 0]%Q.


(** rows whose image the loop embeds, and rows it skips as missing *)
Definition kept {V} (m : fs V) (r : Row) : bool :=
  match m (img_path r) with Some (ImageFile _) => true | _ => false end.

Definition missing {V} (m : fs V) (r : Row) : bool :=
  match m (img_path r) with None => true | _ => false end.

(** the image path of a row is absent or holds a decodable image *)
Definition readable_or_missing {V} (m : fs V) (r : Row) : Prop :=
  m (img_path r) = None \/ exists px, m (img_path r) = Some (ImageFile px).

(** the loop gets through a row: its image path is absent, or holds a
    decodable image and the row's metadata record can be built *)
Definition row_ok {V} (m : fs V) (r : Row) : Prop :=
  m (img_path r) = None \/
  exists px mt, m (img_path r) = Some (ImageFile px) /\ row_meta r = Ok mt.

(** none of the three artifact paths is a directory *)
Definition artifacts_writable {V} (m : fs V) : Prop :=
  m IDS_NPY <> Some Directory /\ m META_JSON <> Some Directory /\ m FAISS_PATH <> Some Directory.

(** the metadata dict after assigning the kept rows in order *)
Definition meta_of (rows : list Row) (d : list (string * CardMeta)) : list (string * CardMeta) :=
  fold_left (fun d r => match row_meta r with
                        | Ok mt => dict_set (row_id r) mt d
                        | Err _ => d
                        end) rows d.

(** the inner product in exact rational arithmetic *)
Fixpoint qdot (x y : list Q) : Q :=
  match x, y with
  | a :: x', b :: y' => (a * b + qdot x' y')%Q
  | _, _ => 0%Q
  end.

(** [a] may come before [b] in faiss' output order: a higher score, or an
    equal score and a label that is not smaller *)
Definition ranked_before (a b : Faiss.slot) : Prop :=
  (snd b < snd a)%Q \/ ((snd a == snd b)%Q /\ (fst b <= fst a)%Z).

(** a disk on which a previous build left id_to_meta.json *)
Definition old_meta_text : string := "{ previous mapping }".

Definition old_disk : Disk.disk :=
  fun p => if String.eqb p META_JSON then Some old_meta_text else None.

(** one card whose raw embedding [1, 1] is not of unit length *)
Definition diag_fs : fs (list Q) :=
  fs_write (fs_write fs_empty CSV_PATH (CsvFile [row_a])) path_a (ImageFile [1; 1]).

(** an embedding generator over the reals that is never the zero vector *)
Definition enc_R (px : list Z) : list R := map IZR (1 :: px).

(** a catalog of one card for the real model *)
Definition real_fs : fs (list R) :=
  fs_write (fs_write fs_empty CSV_PATH (CsvFile [row_a])) path_a (ImageFile [3; 4]).


(** the text "²": [str.isdigit] accepts it, [int] does not *)
Definition sup2 : string := String (Ascii.ascii_of_nat 178) EmptyString.




(** the positions [i, i+1, ...] of [l] whose score equals [s] *)
Fixpoint positions_from (i : nat) (s : Q) (l : list Q) : list nat :=
  match l with
  | [] => []
  | a :: l' => if Qeq_bool a s then i :: positions_from (S i) s l' else positions_from (S i) s l'
  end.

Definition positions_eq (s : Q) (l : list Q) : list nat := positions_from 0 s l.

(** ** sync_catalog: downloading the catalog

    One card of the pokemontcg.io response as the code reads it.  A field is
    [None] when its key is absent; the id, name, number, set id and image
    URLs are JSON strings; [hp] is read by its Python type. *)

Record SetObj : Type := { set_obj_id : option string }.

Record Images : Type := { img_large : option string; img_small : option string }.

Inductive HpRaw : Type :=
| HpStr (s : string)
| HpInt (z : Z)
| HpBool (b : bool)      (* a bool is an int for isinstance *)
| HpOther.               (* null, a float, a list, an object *)

Record Card : Type := {
  card_id : option string;
  card_name : option string;
  card_number : option string;
  card_set : option SetObj;
  card_hp : option HpRaw;
  card_images : option Images
}.

Definition CATALOG_DIR : string := "data/catalog".
Definition IMG_DIR : string := "data/catalog/images".

(** [d.get(key, default)] for a string field *)
Definition get_or (o : option string) (default : string) : string :=
  match o with Some s => s | None => default end.

(** Python truth value of a string field ([None] and [""] are false) *)
Definition truthy (o : option string) : bool :=
  match o with Some s => negb (String.eqb s EmptyString) | None => false end.

(** [(d.get("set") or {}).get("id", "unknown")] *)
Definition card_set_id (d : Card) : string :=
  match card_set d with
  | Some so => get_or (set_obj_id so) "unknown"
  | None => "unknown"
  end.

(** [(d.get("images") or {}).get("large") or (d.get("images") or {}).get("small")] *)
Definition card_img_url (d : Card) : option string :=
  match card_images d with
  | Some im => if truthy (img_large im) then img_large im else img_small im
  | None => None
  end.

(** decimal digits of [n >= 0], least significant first *)
Fixpoint digits_rev (fuel : nat) (n : Z) : list Ascii.ascii :=
  match fuel with
  | O => []
  | S f => Ascii.ascii_of_nat (48 + Z.to_nat (n mod 10))
           :: (if n <? 10 then [] else digits_rev f (n / 10))
  end.

(** Python [str(n)] of an int *)
Definition str_of_int (z : Z) : string :=
  let n := Z.abs z in
  let ds := string_of_list_ascii (rev (digits_rev (S (Z.to_nat (Z.log2 n))) n)) in
  if z <? 0 then ("-" ++ ds)%string else ds.

(** the hp cell csv.DictWriter writes for
    [int(hp_raw) if isinstance(hp_raw, str) and hp_raw.isdigit() else
     (hp_raw if isinstance(hp_raw, int) else "")], where the [except]
    around it turns the ValueError of [int] into [""] *)
Definition hp_cell (h : option HpRaw) : string :=
  match h with
  | Some (HpStr s) =>
      if isdigit s then
        match py_int s with Some n => str_of_int (Z.of_nat n) | None => EmptyString end
      else EmptyString
  | Some (HpInt z) => str_of_int z
  | Some (HpBool b) => if b then "True" else "False"
  | _ => EmptyString
  end.

(** exceptions sync_catalog lets through *)
Inductive SyncError : Type :=
| HTTPError (status : Z)          (* raise_for_status, or the request failed *)
| MkdirError (p : string)         (* mkdir over a file, or under one *)
| IsADirectoryError (p : string). (* open(CSV_PATH, "w") on a directory *)

(** how [sess.get(img_url, stream=True)] and the chunk loop end: the whole
    file written; an error before [open(local, "wb")]; or an error after
    part of the file was written *)
Inductive Download (V : Type) : Type :=
| DlOk (f : file V)
| DlFail (e : SyncError)
| DlBroken (partial : file V) (e : SyncError).
Arguments DlOk {V} f.
Arguments DlFail {V} e.
Arguments DlBroken {V} partial e.

Section Sync.
Variable V : Type.
(** [sess.get(BASE_URL, params={"q": query, "page": page, "pageSize": page_size})],
    [r.raise_for_status()] and [r.json().get("data", [])] *)
Variable request : string -> Z -> Z -> result SyncError (list Card).
(** the image download of one URL *)
Variable download : string -> Download V.
(** [str(a / b)] on pathlib paths *)
Variable join : string -> string -> string.
(** [str(local.parent)] *)
Variable parent : string -> string.
(** [p], [p.parent], [p.parent.parent], ... down to the first component of
    a relative path (whose parent is the working directory) *)
Variable dir_chain : string -> list string.

Definition path_exists (m : fs V) (p : string) : bool :=
  match m p with Some _ => true | None => false end.

(** pathlib's [mkdir(parents=True, exist_ok=True)]: an existing directory is
    left alone, any other file raises, a missing one is made after its
    parents *)
Fixpoint mkdirs (m : fs V) (ds : list string) : fs V * option SyncError :=
  match ds with
  | [] => (m, None)
  | d :: ds' =>
      match m d with
      | Some Directory => (m, None)
      | Some _ => (m, Some (MkdirError d))
      | None =>
          match mkdirs m ds' with
          | (m1, Some e) => (m1, Some e)
          | (m1, None) => (fs_write m1 d Directory, None)
          end
      end
  end.

(** [p.mkdir(parents=True, exist_ok=True)] *)
Definition mkdir_p (m : fs V) (p : string) : fs V * option SyncError :=
  mkdirs m (dir_chain p).

(** [local.parent.mkdir(...)], then the download into [open(local, "wb")] *)
Definition fetch_image (m : fs V) (local url : string) : fs V * option SyncError :=
  match mkdir_p m (parent local) with
  | (m1, Some e) => (m1, Some e)
  | (m1, None) =>
      match download url with
      | DlOk f => (fs_write m1 local f, None)
      | DlFail e => (m1, Some e)
      | DlBroken f e => (fs_write m1 local f, Some e)
      end
  end.

(** [if img_url and not local.exists(): ...] *)
Definition fetch_if_missing (m : fs V) (local : string) (d : Card) : fs V * option SyncError :=
  match card_img_url d with
  | Some url =>
      if truthy (Some url) && negb (path_exists m local)
      then fetch_image m local url
      else (m, None)
  | None => (m, None)
  end.

(** [IMG_DIR / set_id / f"{number or cid}.jpg"] *)
Definition card_local (cid : string) (d : Card) : string :=
  let number := get_or (card_number d) EmptyString in
  join (join IMG_DIR (card_set_id d))
       ((if String.eqb number EmptyString then cid else number) ++ ".jpg").

(** the dict appended to [rows], as the CSV writer writes it *)
Definition card_row (cid : string) (d : Card) : Row := {|
  row_id := cid;
  row_name := get_or (card_name d) EmptyString;
  row_set := card_set_id d;
  row_number := get_or (card_number d) EmptyString;
  row_hp := hp_cell (card_hp d);
  row_image_path := card_local cid d
|}.

(** the local variables [rows], [seen], [total], with the disk *)
Record SyncSt : Type := {
  ss_fs : fs V;
  ss_rows : list Row;
  ss_seen : list string;
  ss_total : Z
}.

Inductive BatchOut : Type :=
| BatchDone (st : SyncSt)               (* the for loop ran out *)
| BatchBreak (st : SyncSt)              (* [if total >= limit: break] *)
| BatchRaise (m : fs V) (e : SyncError).

(** [for d in batch: ...] *)
Fixpoint sync_batch (limit : Z) (batch : list Card) (st : SyncSt) : BatchOut :=
  match batch with
  | [] => BatchDone st
  | d :: batch' =>
      match card_id d with
      | None => sync_batch limit batch' st
      | Some cid =>
          if String.eqb cid EmptyString || existsb (String.eqb cid) (ss_seen st)
          then sync_batch limit batch' st
          else
            let seen := ss_seen st ++ [cid] in
            let local := card_local cid d in
            match fetch_if_missing (ss_fs st) local d with
            | (m1, Some e) => BatchRaise m1 e
            | (m1, None) =>
                let st' := Build_SyncSt m1 (ss_rows st ++ [card_row cid d]) seen (ss_total st + 1) in
                if limit <=? ss_total st' then BatchBreak st' else sync_batch limit batch' st'
            end
      end
  end.

(** [while total < limit: ...]; [fuel] bounds the number of pages, [None]
    when it runs out *)
Fixpoint sync_pages (fuel : nat) (query : string) (page_size limit page : Z) (st : SyncSt)
  : option (fs V * result SyncError (list Row)) :=
  if ss_total st <? limit then
    match fuel with
    | O => None
    | S fuel' =>
        match request query page page_size with
        | Err e => Some (ss_fs st, Err e)
        | Ok [] => Some (ss_fs st, Ok (ss_rows st))
        | Ok batch =>
            match sync_batch limit batch st with
            | BatchDone st' | BatchBreak st' => sync_pages fuel' query page_size limit (page + 1) st'
            | BatchRaise m e => Some (m, Err e)
            end
        end
    end
  else Some (ss_fs st, Ok (ss_rows st)).

(** [sync_catalog(query, page_size, limit)]: the disk afterwards, and the
    exception it raised if any *)
Definition sync_catalog (fuel : nat) (query : string) (page_size limit : Z) (m : fs V)
  : option (fs V * option SyncError) :=
  match mkdir_p m CATALOG_DIR with
  | (m1, Some e) => Some (m1, Some e)
  | (m1, None) =>
      match mkdir_p m1 IMG_DIR with
      | (m2, Some e) => Some (m2, Some e)
      | (m2, None) =>
          match sync_pages fuel query page_size limit 1 (Build_SyncSt m2 [] [] 0) with
          | None => None
          | Some (m3, Err e) => Some (m3, Some e)
          | Some (m3, Ok rows) =>
              match m3 CSV_PATH with
              | Some Directory => Some (m3, Some (IsADirectoryError CSV_PATH))
              | _ => Some (fs_write m3 CSV_PATH (CsvFile rows), None)
              end
          end
      end
  end.

End Sync.

Arguments path_exists {V} m p.
Arguments mkdirs {V} m ds.
Arguments mkdir_p {V} dir_chain m p.
Arguments fetch_image {V} download parent dir_chain m local url.
Arguments fetch_if_missing {V} download parent dir_chain m local d.
Arguments Build_SyncSt {V} ss_fs ss_rows ss_seen ss_total.
Arguments ss_fs {V} s.
Arguments ss_rows {V} s.
Arguments ss_seen {V} s.
Arguments ss_total {V} s.
Arguments BatchDone {V} st.
Arguments BatchBreak {V} st.
Arguments BatchRaise {V} m e.
Arguments sync_batch {V} download join parent dir_chain limit batch st.
Arguments sync_pages {V} request download join parent dir_chain fuel query page_size limit page st.
Arguments sync_catalog {V} request download join parent dir_chain fuel query page_size limit m.

(** the rows written for kept cards *)
Definition cards_rows (join : string -> string -> string) (l : list (string * Card)) : list Row :=
  map (fun cd => card_row join (fst cd) (snd cd)) l.

(** files present in [m] are still there, unchanged, in [m'] *)
Definition fs_keeps {V} (m m' : fs V) : Prop :=
  forall p f, m p = Some f -> m' p = Some f.

(** the cards sync keeps, in API order: the first card of each non-empty
    id not seen before *)
Fixpoint first_cards (seen : list string) (cs : list Card) : list (string * Card) :=
  match cs with
  | [] => []
  | d :: cs' =>
      match card_id d with
      | Some cid =>
          if String.eqb cid EmptyString || existsb (String.eqb cid) seen
          then first_cards seen cs'
          else (cid, d) :: first_cards (seen ++ [cid]) cs'
      | None => first_cards seen cs'
      end
  end.

(** ** A concrete run of sync_catalog *)

(** [str(Path(a) / b)] for relative POSIX paths *)
Definition demo_join (a b : string) : string := (a ++ "/" ++ b)%string.

Fixpoint drop_to_slash (cs : list Ascii.ascii) : list Ascii.ascii :=
  match cs with
  | [] => []
  | c :: cs' => if Ascii.eqb c (Ascii.ascii_of_nat 47%nat) then cs' else drop_to_slash cs'
  end.

(** [str(Path(p).parent)] for a relative path with a [/] *)
Definition demo_parent (p : string) : string :=
  string_of_list_ascii (rev (drop_to_slash (rev (list_ascii_of_string p)))).

Fixpoint demo_chain_aux (fuel : nat) (p : string) : list string :=
  match fuel with
  | O => []
  | S f => p :: (if existsb (Ascii.eqb (Ascii.ascii_of_nat 47%nat)) (list_ascii_of_string p)
                 then demo_chain_aux f (demo_parent p) else [])
  end.

Definition demo_chain (p : string) : list string := demo_chain_aux (String.length p) p.

Definition card_a : Card := {|
  card_id := Some "sv3-1"%string; card_name := Some "Oddish"%string; card_number := Some "1"%string;
  card_set := Some {| set_obj_id := Some "sv3"%string |}; card_hp := Some (HpStr "070"%string);
  card_images := Some {| img_large := Some "https://images/sv3/1_hires.png"%string; img_small := None |}
|}.

Definition card_b : Card := {|
  card_id := Some "sv3-2"%string; card_name := Some "Gloom"%string; card_number := None;
  card_set := None; card_hp := Some (HpInt 90);
  card_images := Some {| img_large := Some EmptyString; img_small := Some "https://images/sv3/2.png"%string |}
|}.

Definition card_noid : Card := {|
  card_id := None; card_name := Some "?"%string; card_number := None;
  card_set := None; card_hp := None; card_images := None
|}.

(** page 1 holds card_a, card_b, card_a again and a card without id;
    page 2 is empty *)
Definition demo_request (query : string) (page page_size : Z) : result SyncError (list Card) :=
  if page =? 1 then Ok [card_a; card_b; card_a; card_noid] else Ok [].

(** every image downloads as a two-pixel image *)
Definition demo_download (url : string) : Download (list Q) :=
  DlOk (ImageFile [1; 0]).

(** an API that answers every page with card_a twice *)
Definition same_page_request (query : string) (page page_size : Z) : result SyncError (list Card) :=
  Ok [card_a; card_a].

(** * Properties *)

Example f32_round_third : f32_round (1 # 3) == 11184811 # 33554432.
Proof. reflexivity. Qed.

Example f32_sqrt_two : f32_sqrt 2 == 11863283 # 8388608.
Proof. reflexivity. Qed.

Example faiss_search_pad :
  reduce_slots (Faiss.search _ f32_dot [[1; 0]; [0; 1]]%Q [0; 1]%Q 3)
  = reduce_slots [(1, 1%Q); (0, 0%Q); (-1, Faiss.neutral)].
Proof. reflexivity. Qed.

Example python_isdigit_sup2 : isdigit sup2 = true /\ py_int sup2 = None.
Proof. split; reflexivity. Qed.

Example pathlib_str_examples :
  pathlib_str "data//catalog/./images/a.jpg/" = "data/catalog/images/a.jpg"%string /\
  pathlib_str EmptyString = "."%string /\
  pathlib_str "//srv/x" = "//srv/x"%string /\ pathlib_str "///srv/x" = "/srv/x"%string.
Proof. repeat split; vm_compute; reflexivity. Qed.

Lemma Qle_bool_false (a b : Q) : Qle_bool a b = false -> (b < a)%Q.
Proof. intros H. apply Qnot_le_lt. intros Hc. apply Qle_bool_iff in Hc. congruence. Qed.

(** [CMin::cmp2] against a slot of a larger label compares the scores only *)
Lemma lex_lt_fresh (y x : Faiss.slot) :
  (fst y < fst x)%Z -> Faiss.lex_lt y x = Qle_bool (snd y) (snd x).
Proof.
  intros H. unfold Faiss.lex_lt, Qltb.
  destruct (Qle_bool (snd y) (snd x)) eqn:E1;
    destruct (Qle_bool (snd x) (snd y)) eqn:E2; simpl.
  - apply Qle_bool_iff in E1, E2.
    assert (E : Qeq_bool (snd y) (snd x) = true) by (apply Qeq_bool_iff; lra).
    rewrite E. simpl. apply Z.ltb_lt. exact H.
  - reflexivity.
  - apply Qle_bool_false in E1. apply Qle_bool_iff in E2.
    destruct (Qeq_bool (snd y) (snd x)) eqn:E; [apply Qeq_bool_iff in E; lra | reflexivity].
  - apply Qle_bool_false in E1, E2. lra.
Qed.

Lemma lex_lt_true (y x : Faiss.slot) :
  Faiss.lex_lt y x = true -> (snd y < snd x)%Q \/ ((snd y == snd x)%Q /\ (fst y < fst x)%Z).
Proof.
  unfold Faiss.lex_lt, Qltb. intros H.
  apply orb_true_iff in H as [H | H].
  - left. apply negb_true_iff, Qle_bool_false in H. exact H.
  - apply andb_true_iff in H as [H1 H2]. right.
    split; [apply Qeq_bool_iff; exact H1 | apply Z.ltb_lt; exact H2].
Qed.

Lemma lex_lt_false (y x : Faiss.slot) :
  Faiss.lex_lt y x = false -> (snd x <= snd y)%Q.
Proof.
  unfold Faiss.lex_lt, Qltb. intros H.
  apply orb_false_iff in H as [H _].
  apply negb_false_iff, Qle_bool_iff in H. exact H.
Qed.

Section FaissOrder.
Variable V : Type.
Variable ip : V -> V -> Q.

Lemma ranked_before_trans : Transitive ranked_before.
Proof.
  intros [la sa] [lb sb] [lc sc]; unfold ranked_before; simpl.
  intros [H1 | [H1 H1']] [H2 | [H2 H2']].
  - left; lra.
  - left; lra.
  - left; lra.
  - right; split; [lra | lia].
Qed.

Lemma insert_slot_in (x y : Faiss.slot) (l : list Faiss.slot) :
  In y (Faiss.insert_slot x l) -> y = x \/ In y l.
Proof.
  induction l as [| z l IH]; simpl.
  - intros [-> | []]; auto.
  - destruct (Faiss.lex_lt z x); simpl.
    + intros [-> | [-> | H]]; auto.
    + intros [-> | H]; auto. destruct (IH H); auto.
Qed.

Lemma removelast_in {A} (y : A) (l : list A) : In y (removelast l) -> In y l.
Proof.
  induction l as [| a l IH]; simpl; [tauto |].
  destruct l as [| b l]; simpl; [tauto |].
  intros [-> | H]; auto. right; apply IH; exact H.
Qed.

Lemma removelast_sorted {A} (R : A -> A -> Prop) (l : list A) :
  Sorted R l -> Sorted R (removelast l).
Proof.
  induction l as [| a l IH]; simpl; [auto |].
  intros Hs. apply Sorted_inv in Hs as [Hs Hd].
  destruct l as [| b l]; [constructor |].
  constructor; [apply IH; exact Hs |].
  apply HdRel_inv in Hd. simpl. destruct l; constructor; exact Hd.
Qed.

Lemma insert_slot_sorted (x : Faiss.slot) (l : list Faiss.slot) :
  Sorted ranked_before l -> Forall (fun s => (fst s < fst x)%Z) l ->
  Sorted ranked_before (Faiss.insert_slot x l).
Proof.
  induction l as [| y l IH]; simpl; intros Hs Hf.
  - repeat constructor.
  - apply Sorted_inv in Hs as [Hs Hd]. inversion Hf as [| ? ? Hy Hf']; subst.
    rewrite (lex_lt_fresh y x Hy).
    destruct (Qle_bool (snd y) (snd x)) eqn:Hle.
    + apply Qle_bool_iff in Hle.
      constructor; [constructor; assumption |].
      constructor. unfold ranked_before.
      destruct (Qle_lt_or_eq _ _ Hle) as [Hlt | Heq]; [left; exact Hlt | right; split; [apply Qeq_sym; exact Heq | lia]].
    + apply Qle_bool_false in Hle.
      constructor; [apply IH; assumption |].
      destruct l as [| z l]; simpl; [constructor; left; exact Hle |].
      inversion Hf' as [| ? ? Hz _]; subst.
      rewrite (lex_lt_fresh z x Hz).
      destruct (Qle_bool (snd z) (snd x)); constructor; [left; exact Hle |].
      apply HdRel_inv in Hd; exact Hd.
Qed.

(** the invariant of the result handler after the vectors [0 .. i-1] *)
Definition handler_inv (i : Z) (buf : list Faiss.slot) : Prop :=
  Sorted ranked_before buf /\ Forall (fun s => (fst s < i)%Z) buf.

Lemma push_inv (i : Z) (s : Q) (buf : list Faiss.slot) :
  handler_inv i buf -> handler_inv (i + 1) (Faiss.push buf (i, s)).
Proof.
  intros [Hs Hf]. unfold Faiss.push.
  assert (Hf1 : Forall (fun s0 => (fst s0 < i + 1)%Z) buf).
  { eapply Forall_impl; [| exact Hf]. simpl; intros; lia. }
  destruct (Faiss.worst buf) as [w |]; [| split; [exact Hs | exact Hf1]].
  simpl. destruct (Qltb (snd w) s); [| split; [exact Hs | exact Hf1]].
  split.
  - apply insert_slot_sorted; [apply removelast_sorted; exact Hs |].
    apply Forall_forall. intros y Hy. apply removelast_in in Hy.
    rewrite Forall_forall in Hf. apply Hf. exact Hy.
  - apply Forall_forall. intros y Hy. apply insert_slot_in in Hy as [-> | Hy].
    + simpl; lia.
    + apply removelast_in in Hy. rewrite Forall_forall in Hf1. apply Hf1. exact Hy.
Qed.

Lemma scan_inv (q : V) (xb : list V) (i : Z) (buf : list Faiss.slot) :
  handler_inv i buf -> handler_inv (i + Z.of_nat (length xb)) (Faiss.scan V ip q i xb buf).
Proof.
  revert i buf. induction xb as [| x xb IH]; simpl; intros i buf H.
  - rewrite Z.add_0_r; exact H.
  - replace (i + Z.pos (Pos.of_succ_nat (length xb)))%Z
      with (i + 1 + Z.of_nat (length xb))%Z by lia.
    apply IH, push_inv, H.
Qed.

End FaissOrder.

Lemma handler_inv_init (k : nat) : handler_inv 0 (repeat ((-1)%Z, Faiss.neutral) k).
Proof.
  split.
  - induction k as [| k IH]; simpl; [constructor |].
    constructor; [exact IH |].
    destruct k; simpl; constructor. right; split; [apply Qeq_refl | lia].
  - apply Forall_forall. intros y Hy. apply repeat_spec in Hy. subst y. simpl; lia.
Qed.

(** C1 (counterexample): two stored copies of the query tie with score 1;
    faiss lists position 1 before position 0. *)
Lemma search_ties_counterexample :
  reduce_slots (Faiss.search _ f32_dot [[1; 0]; [1; 0]]%Q [1; 0]%Q 2)
  = [(1%Z, 1%Q); (0%Z, 1%Q)].
Proof. vm_compute. reflexivity. Qed.

(** C1 (amended): for [0 < k < 100] the pairs [(position, score)] returned
    by [index.search] are ranked: scores never increase along the sequence,
    and of two results with equal scores the one with the higher position
    comes first (the padding slots of label -1 come after every stored
    vector of a score above -FLT_MAX). *)
Theorem search_ranked (V : Type) (ip : V -> V -> Q) (xb : list V) (q : V) (k : nat) :
  (0 < k)%nat -> (k < 100)%nat ->
  StronglySorted ranked_before (Faiss.search V ip xb q k).
Proof.
  intros _ _.
  apply Sorted_StronglySorted; [apply ranked_before_trans |].
  unfold Faiss.search.
  destruct (scan_inv V ip q xb 0 _ (handler_inv_init k)) as [Hs _].
  exact Hs.
Qed.

Lemma search_ranked_witness :
  StronglySorted ranked_before (Faiss.search _ f32_dot [[1; 0]; [1; 0]]%Q [1; 0]%Q 2).
Proof. apply search_ranked; lia. Defined.

Lemma insert_slot_length (x : Faiss.slot) (l : list Faiss.slot) :
  length (Faiss.insert_slot x l) = S (length l).
Proof.
  induction l as [| y l IH]; simpl; [reflexivity |].
  destruct (Faiss.lex_lt y x); simpl; [| rewrite IH]; reflexivity.
Qed.

Lemma worst_none (l : list Faiss.slot) : Faiss.worst l = None -> l = [].
Proof.
  unfold Faiss.worst. induction l as [| y l IH]; [reflexivity |].
  simpl. destruct l as [| z l]; simpl; [discriminate |].
  intros H. specialize (IH H). discriminate.
Qed.

Lemma push_length (buf : list Faiss.slot) (x : Faiss.slot) :
  length (Faiss.push buf x) = length buf.
Proof.
  unfold Faiss.push. destruct (Faiss.worst buf) eqn:Hw; [| reflexivity].
  destruct (Qltb (snd s) (snd x)); [| reflexivity].
  rewrite insert_slot_length.
  destruct buf as [| y buf]; [discriminate |].
  rewrite (app_removelast_last y (l := y :: buf)) at 2 by discriminate.
  rewrite length_app; simpl; lia.
Qed.

Lemma search_length (V : Type) (ip : V -> V -> Q) (xb : list V) (q : V) (k : nat) :
  length (Faiss.search V ip xb q k) = k.
Proof.
  unfold Faiss.search. rewrite <- (repeat_length ((-1)%Z, Faiss.neutral) k) at 2.
  generalize 0%Z (repeat ((-1)%Z, Faiss.neutral) k).
  induction xb as [| x xb IH]; simpl; intros i buf; [reflexivity |].
  rewrite IH. apply push_length.
Qed.

(** C2 (the code at the failing input): [index.search(qvec, k)] always
    returns [k] pairs, whatever the number of stored vectors; over the
    two-card catalog, identify with topk = 3 prints three rows, the third
    being the padding label -1 read as [ids[-1]], i.e. the last card, with
    score -FLT_MAX. *)
Theorem identify_topk_beyond_catalog :
  (forall (V : Type) (ip : V -> V -> Q) xb q k, length (Faiss.search V ip xb q k) = k) /\
  exists rows,
    identify_first_image_inline enc32 f32_normalize f32_dot demo_built 3 = Ok rows /\
    map (fun r => (fst (fst r), Qred (snd r))) rows
    = [("sv3-1"%string, 1%Q); ("sv3-2"%string, 0%Q); ("sv3-2"%string, Qred Faiss.neutral)].
Proof.
  split; [exact search_length |].
  eexists; split; vm_compute; reflexivity.
Qed.

Lemma scan_app (V : Type) (ip : V -> V -> Q) (q : V) (i : Z) (xb1 xb2 : list V) buf :
  Faiss.scan V ip q i (xb1 ++ xb2) buf
  = Faiss.scan V ip q (i + Z.of_nat (length xb1)) xb2 (Faiss.scan V ip q i xb1 buf).
Proof.
  revert i buf. induction xb1 as [| x xb1 IH]; simpl; intros i buf.
  - rewrite Z.add_0_r; reflexivity.
  - rewrite IH. f_equal. lia.
Qed.

Lemma worst_in (l : list Faiss.slot) (w : Faiss.slot) : Faiss.worst l = Some w -> In w l.
Proof.
  unfold Faiss.worst. induction l as [| y l IH]; simpl; [discriminate |].
  destruct l as [| z l]; simpl.
  - intros H; injection H; auto.
  - intros H. right. apply IH. exact H.
Qed.

Definition pad_slot : Faiss.slot := ((-1)%Z, Faiss.neutral).

Lemma worst_last (l : list Faiss.slot) (w : Faiss.slot) :
  Faiss.worst l = Some w -> l = removelast l ++ [w].
Proof.
  unfold Faiss.worst. induction l as [| y l IH]; simpl; [discriminate |].
  destruct l as [| z l]; simpl.
  - intros H; injection H as <-. reflexivity.
  - intros H. f_equal. apply IH. exact H.
Qed.

Lemma worst_app_last (l : list Faiss.slot) (a : Faiss.slot) : Faiss.worst (l ++ [a]) = Some a.
Proof.
  unfold Faiss.worst. rewrite map_app. simpl.
  induction (map Some l) as [| y l' IH]; [reflexivity |].
  simpl. destruct (l' ++ [Some a]) eqn:E; [destruct l'; discriminate | exact IH].
Qed.

Lemma worst_some (l : list Faiss.slot) : l <> [] -> exists w, Faiss.worst l = Some w.
Proof.
  intros Hl. destruct (Faiss.worst l) as [w |] eqn:E; [eauto |].
  apply worst_none in E. contradiction.
Qed.

Lemma strongly_sorted_last {A} (R : A -> A -> Prop) (l : list A) (w : A) :
  StronglySorted R (l ++ [w]) -> forall s, In s l -> R s w.
Proof.
  induction l as [| a l IH]; simpl; [intros _ _ [] |].
  intros Hs s [-> | Hin].
  - apply StronglySorted_inv in Hs as [_ Hf]. rewrite Forall_forall in Hf.
    apply Hf, in_or_app. right; left; reflexivity.
  - apply StronglySorted_inv in Hs as [Hs _]. exact (IH Hs s Hin).
Qed.

(** every slot of a ranked buffer scores at least its last slot *)
Lemma worst_le (l : list Faiss.slot) (w s : Faiss.slot) :
  Sorted ranked_before l -> Faiss.worst l = Some w -> In s l -> (snd w <= snd s)%Q.
Proof.
  intros Hs Ew Hin.
  apply Sorted_StronglySorted in Hs; [| apply ranked_before_trans].
  rewrite (worst_last _ _ Ew) in Hs, Hin.
  apply in_app_or in Hin as [Hin | [<- | []]]; [| apply Qle_refl].
  destruct (strongly_sorted_last _ _ _ Hs s Hin) as [H | [H _]]; [lra | rewrite H; apply Qle_refl].
Qed.

(** the first slot of a ranked buffer scores at least every slot *)
Lemma head_ge (h : Faiss.slot) (t : list Faiss.slot) (s : Faiss.slot) :
  Sorted ranked_before (h :: t) -> In s (h :: t) -> (snd s <= snd h)%Q.
Proof.
  intros Hs Hin.
  apply Sorted_StronglySorted in Hs; [| apply ranked_before_trans].
  destruct Hin as [<- | Hin]; [apply Qle_refl |].
  apply StronglySorted_inv in Hs as [_ Hf]. rewrite Forall_forall in Hf.
  destruct (Hf s Hin) as [H | [H _]]; [lra | rewrite H; apply Qle_refl].
Qed.

Lemma insert_slot_perm (x : Faiss.slot) (l : list Faiss.slot) :
  Permutation (Faiss.insert_slot x l) (x :: l).
Proof.
  induction l as [| y l IH]; simpl; [reflexivity |].
  destruct (Faiss.lex_lt y x); [reflexivity |].
  rewrite IH. apply perm_swap.
Qed.

Lemma insert_slot_pad (x : Faiss.slot) (l : list Faiss.slot) (j : nat) :
  (Faiss.neutral < snd x)%Q ->
  Faiss.insert_slot x (l ++ repeat pad_slot j) = Faiss.insert_slot x l ++ repeat pad_slot j.
Proof.
  intros Hx. induction l as [| y l IH]; simpl.
  - destruct j as [| j]; simpl; [reflexivity |].
    assert (E : Faiss.lex_lt pad_slot x = true).
    { unfold Faiss.lex_lt, Qltb. simpl.
      destruct (Qle_bool (snd x) Faiss.neutral) eqn:E; [| reflexivity].
      apply Qle_bool_iff in E. lra. }
    rewrite E. reflexivity.
  - destruct (Faiss.lex_lt y x); [| rewrite IH]; reflexivity.
Qed.

Lemma repeat_snoc {A} (a : A) (j : nat) : repeat a (S j) = repeat a j ++ [a].
Proof. induction j as [| j IH]; simpl; [reflexivity |]. rewrite <- IH. reflexivity. Qed.

Lemma nth_error_snoc {A} (l : list A) (x : A) (p : nat) (y : A) :
  nth_error (l ++ [x]) p = Some y -> nth_error l p = Some y \/ (p = length l /\ y = x).
Proof.
  intros H. destruct (Nat.lt_ge_cases p (length l)) as [Hlt | Hge].
  - left. rewrite nth_error_app1 in H by exact Hlt. exact H.
  - right. rewrite nth_error_app2 in H by exact Hge.
    destruct (p - length l)%nat as [| n] eqn:E; simpl in H; [| destruct n; discriminate].
    injection H as <-. split; [lia | reflexivity].
Qed.

Lemma nth_error_snoc_last {A} (l : list A) (x : A) : nth_error (l ++ [x]) (length l) = Some x.
Proof. rewrite nth_error_app2 by lia. rewrite Nat.sub_diag. reflexivity. Qed.

Lemma nth_error_snoc_prefix {A} (l : list A) (x : A) (p : nat) (y : A) :
  nth_error l p = Some y -> nth_error (l ++ [x]) p = Some y.
Proof.
  intros H. rewrite nth_error_app1; [exact H |]. apply nth_error_Some. congruence.
Qed.

Section TopK.
Variable V : Type.
Variable ip : V -> V -> Q.
Variable q : V.

(** the pair [(p, ip q xb[p])] of a stored vector *)
Definition stored_slot (xb : list V) (s : Faiss.slot) : Prop :=
  exists p x, nth_error xb p = Some x /\ s = (Z.of_nat p, ip q x).

Lemma stored_slot_snoc (xb : list V) (x : V) (s : Faiss.slot) :
  stored_slot xb s -> stored_slot (xb ++ [x]) s.
Proof.
  intros (p & y & Hp & ->). exists p, y. split; [apply nth_error_snoc_prefix, Hp | reflexivity].
Qed.

(** after the prefix [xb]: ranked slots, each the padding or a stored
    vector with its score, and every stored vector left out scoring at most
    every slot *)
Definition topk_inv (xb : list V) (buf : list Faiss.slot) : Prop :=
  handler_inv (Z.of_nat (length xb)) buf /\
  (forall s, In s buf -> s = pad_slot \/ stored_slot xb s) /\
  (forall p x, nth_error xb p = Some x -> ~ In (Z.of_nat p) (map fst buf) ->
     forall s, In s buf -> (ip q x <= snd s)%Q).

Lemma topk_inv_push (xb : list V) (x : V) (buf : list Faiss.slot) :
  topk_inv xb buf ->
  topk_inv (xb ++ [x]) (Faiss.push buf (Z.of_nat (length xb), ip q x)).
Proof.
  intros (Hinv & Hst & Hex).
  assert (Hinv' : handler_inv (Z.of_nat (length (xb ++ [x])))
                    (Faiss.push buf (Z.of_nat (length xb), ip q x))).
  { rewrite length_app. simpl.
    replace (Z.of_nat (length xb + 1)) with (Z.of_nat (length xb) + 1)%Z by lia.
    apply push_inv, Hinv. }
  pose proof Hinv as [Hs Hlab].
  rewrite Forall_forall in Hlab.
  unfold Faiss.push in *. destruct (Faiss.worst buf) as [w |] eqn:Ew.
  2:{ apply worst_none in Ew. subst buf. split; [exact Hinv' |].
      split; [intros s [] | intros p y _ _ s []]. }
  pose proof (worst_last _ _ Ew) as Hbuf.
  assert (Hwb : In w buf) by (apply worst_in; exact Ew).
  unfold Qltb in *. simpl in *.
  destruct (Qle_bool (ip q x) (snd w)) eqn:Ele; simpl in *.
  - (* the new vector is left out *)
    apply Qle_bool_iff in Ele.
    split; [exact Hinv' |]. split.
    + intros s Hin. destruct (Hst s Hin) as [H | H]; [left; exact H | right; apply stored_slot_snoc, H].
    + intros p y Hp Hn s Hin. apply nth_error_snoc in Hp as [Hp | [-> ->]].
      * exact (Hex p y Hp Hn s Hin).
      * pose proof (worst_le _ _ _ Hs Ew Hin). lra.
  - (* the new vector replaces the last slot *)
    apply Qle_bool_false in Ele.
    split; [exact Hinv' |]. split.
    + intros s Hin. apply insert_slot_in in Hin as [-> | Hin].
      * right. exists (length xb), x. split; [apply nth_error_snoc_last | reflexivity].
      * apply removelast_in in Hin.
        destruct (Hst s Hin) as [H | H]; [left; exact H | right; apply stored_slot_snoc, H].
    + intros p y Hp Hn s Hin.
      assert (Hpn : p <> length xb).
      { intros ->. apply Hn. apply in_map_iff.
        exists (Z.of_nat (length xb), ip q x). split; [reflexivity |].
        apply (Permutation_in _ (Permutation_sym (insert_slot_perm _ _))). left; reflexivity. }
      apply nth_error_snoc in Hp as [Hp | [? _]]; [| contradiction].
      (* the left-out vector scores at most the evicted slot *)
      assert (Hsc : (ip q y <= snd w)%Q).
      { destruct (in_dec Z.eq_dec (Z.of_nat p) (map fst buf)) as [Hb | Hb].
        - apply in_map_iff in Hb as (b & Hbp & Hb).
          assert (Hbw : b = w).
          { rewrite Hbuf in Hb. apply in_app_or in Hb as [Hb | [<- | []]]; [| reflexivity].
            exfalso. apply Hn. apply in_map_iff. exists b. split; [exact Hbp |].
            apply (Permutation_in _ (Permutation_sym (insert_slot_perm _ _))). right; exact Hb. }
          subst b.
          destruct (Hst w Hwb) as [Hpad | (p' & y' & Hp' & Hws)].
          + rewrite Hpad in Hbp. simpl in Hbp. lia.
          + rewrite Hws in Hbp |- *. simpl in Hbp. apply Nat2Z.inj in Hbp. subst p'.
            rewrite Hp in Hp'. injection Hp' as ->. apply Qle_refl.
        - exact (Hex p y Hp Hb w Hwb). }
      apply insert_slot_in in Hin as [-> | Hin].
      * simpl. lra.
      * pose proof (worst_le _ _ _ Hs Ew (removelast_in _ _ Hin)). lra.
Qed.

Lemma topk_inv_search (xb : list V) (k : nat) : topk_inv xb (Faiss.search V ip xb q k).
Proof.
  induction xb as [| x xb IH] using rev_ind.
  - split; [apply handler_inv_init |]. split.
    + intros s Hin. left. apply repeat_spec in Hin. exact Hin.
    + intros p y Hp. destruct p; discriminate.
  - unfold Faiss.search in *. rewrite scan_app. simpl.
    apply topk_inv_push, IH.
Qed.

(** with every score above the sentinel: [min(k, N)] stored vectors, each
    once, then the padding *)
Definition shape_inv (k : nat) (xb : list V) (buf : list Faiss.slot) : Prop :=
  exists real, buf = real ++ repeat pad_slot (k - length xb) /\
    length real = Nat.min k (length xb) /\ NoDup (map fst real) /\
    Forall (fun s => (fst s < Z.of_nat (length xb))%Z) real /\
    (forall s, In s real -> stored_slot xb s).

Lemma shape_inv_push (k : nat) (xb : list V) (x : V) (buf : list Faiss.slot) :
  (Faiss.neutral < ip q x)%Q -> shape_inv k xb buf ->
  shape_inv k (xb ++ [x]) (Faiss.push buf (Z.of_nat (length xb), ip q x)).
Proof.
  intros Hx (real & -> & Hlen & Hnd & Hlab & Hst).
  unfold shape_inv. rewrite length_app. simpl.
  set (n := length xb) in *.
  assert (Hfresh : ~ In (Z.of_nat n) (map fst real)).
  { intros Hin. apply in_map_iff in Hin as (s & Hs & Hin).
    rewrite Forall_forall in Hlab. specialize (Hlab s Hin). lia. }
  assert (Hst' : forall s, In s real -> stored_slot (xb ++ [x]) s)
    by (intros s Hs; apply stored_slot_snoc, Hst, Hs).
  assert (Hlab' : Forall (fun s => (fst s < Z.of_nat (n + 1))%Z) real).
  { eapply Forall_impl; [| exact Hlab]. simpl; intros; lia. }
  assert (Hnew : stored_slot (xb ++ [x]) (Z.of_nat n, ip q x))
    by (exists n, x; split; [apply nth_error_snoc_last | reflexivity]).
  destruct (k - n)%nat as [| j] eqn:Ej.
  - (* no padding left: the buffer holds k stored vectors *)
    replace (k - (n + 1))%nat with 0%nat by lia. cbn [repeat]. rewrite !app_nil_r.
    assert (Hk : Nat.min k (n + 1) = k) by lia.
    unfold Faiss.push. destruct (Faiss.worst real) as [w |] eqn:Ew.
    2:{ exists real. split; [rewrite ?app_nil_r; reflexivity |]. split; [lia |].
        split; [exact Hnd |]. split; [exact Hlab' | exact Hst']. }
    cbn [snd]. destruct (Qltb (snd w) (ip q x)).
    2:{ exists real. split; [rewrite ?app_nil_r; reflexivity |]. split; [lia |].
        split; [exact Hnd |]. split; [exact Hlab' | exact Hst']. }
    exists (Faiss.insert_slot (Z.of_nat n, ip q x) (removelast real)).
    pose proof (worst_last _ _ Ew) as Hr.
    assert (Hrl : length (removelast real) = (length real - 1)%nat)
      by (rewrite Hr at 2; rewrite length_app; simpl; lia).
    assert (Hsub : forall s, In s (removelast real) -> In s real) by (intros; apply removelast_in; auto).
    split; [rewrite app_nil_r; reflexivity |].
    split.
    { rewrite insert_slot_length, Hrl.
      destruct real as [| r0 real0]; [unfold Faiss.worst in Ew; simpl in Ew; discriminate |].
      simpl in Hlen |- *. lia. }
    split; [| split].
    + apply (Permutation_NoDup (Permutation_map fst (Permutation_sym (insert_slot_perm _ _)))).
      simpl. constructor.
      * intros Hin. apply Hfresh. apply in_map_iff in Hin as (s & Hs & Hin).
        apply in_map_iff. exists s. split; [exact Hs | apply Hsub, Hin].
      * rewrite Hr in Hnd. rewrite map_app in Hnd. apply NoDup_app_remove_r in Hnd. exact Hnd.
    + apply Forall_forall. intros s Hin. apply insert_slot_in in Hin as [-> | Hin]; simpl; [lia |].
      rewrite Forall_forall in Hlab'. apply Hlab', Hsub, Hin.
    + intros s Hin. apply insert_slot_in in Hin as [-> | Hin]; [exact Hnew | apply Hst', Hsub, Hin].
  - (* a padding slot is the last one and is replaced *)
    rewrite repeat_snoc, app_assoc. unfold Faiss.push. rewrite worst_app_last.
    assert (Hq : Qltb (snd pad_slot) (ip q x) = true).
    { unfold Qltb. destruct (Qle_bool (ip q x) (snd pad_slot)) eqn:E; [| reflexivity].
      apply Qle_bool_iff in E. simpl in E. lra. }
    cbv beta iota. cbn [snd]. rewrite Hq, removelast_last, insert_slot_pad by exact Hx.
    exists (Faiss.insert_slot (Z.of_nat n, ip q x) real).
    split; [f_equal; f_equal; lia |].
    split; [rewrite insert_slot_length; lia |].
    split; [| split].
    + apply (Permutation_NoDup (Permutation_map fst (Permutation_sym (insert_slot_perm _ _)))).
      simpl. constructor; assumption.
    + apply Forall_forall. intros s Hin. apply insert_slot_in in Hin as [-> | Hin]; simpl; [lia |].
      rewrite Forall_forall in Hlab'. apply Hlab', Hin.
    + intros s Hin. apply insert_slot_in in Hin as [-> | Hin]; [exact Hnew | apply Hst', Hin].
Qed.

Lemma shape_inv_search (xb : list V) (k : nat) :
  (forall x, In x xb -> (Faiss.neutral < ip q x)%Q) -> shape_inv k xb (Faiss.search V ip xb q k).
Proof.
  induction xb as [| x xb IH] using rev_ind; intros Hpos.
  - exists []. simpl. rewrite Nat.sub_0_r. repeat split; auto; [lia | constructor | intros s []].
  - unfold Faiss.search in *. rewrite scan_app. simpl.
    apply shape_inv_push.
    + apply Hpos, in_or_app. right; left; reflexivity.
    + apply IH. intros y Hy. apply Hpos, in_or_app. left; exact Hy.
Qed.

End TopK.

(** ** Rank 1 *)

Lemma positions_from_app (i : nat) (s : Q) (l1 l2 : list Q) :
  positions_from i s (l1 ++ l2) = positions_from i s l1 ++ positions_from (i + length l1) s l2.
Proof.
  revert i. induction l1 as [| a l1 IH]; intros i; simpl.
  - rewrite Nat.add_0_r. reflexivity.
  - rewrite IH. replace (S i + length l1)%nat with (i + S (length l1))%nat by lia.
    destruct (Qeq_bool a s); reflexivity.
Qed.

Lemma positions_from_Qeq (i : nat) (s s' : Q) (l : list Q) :
  (s == s')%Q -> positions_from i s l = positions_from i s' l.
Proof.
  intros Hs. revert i. induction l as [| a l IH]; intros i; simpl; [reflexivity |].
  rewrite IH.
  destruct (Qeq_bool a s) eqn:E1, (Qeq_bool a s') eqn:E2; try reflexivity.
  - apply Qeq_bool_iff in E1. apply Qeq_bool_neq in E2. exfalso. apply E2. rewrite E1. exact Hs.
  - apply Qeq_bool_iff in E2. apply Qeq_bool_neq in E1. exfalso. apply E1. rewrite E2. apply Qeq_sym, Hs.
Qed.

Lemma positions_from_in (i j : nat) (s a : Q) (l : list Q) :
  nth_error l j = Some a -> (a == s)%Q -> In (i + j)%nat (positions_from i s l).
Proof.
  revert i j. induction l as [| b l IH]; intros i j Hj Ha; [destruct j; discriminate |].
  simpl. destruct j as [| j]; simpl in Hj.
  - injection Hj as ->. apply Qeq_bool_iff in Ha. rewrite Ha. left. lia.
  - replace (i + S j)%nat with (S i + j)%nat by lia.
    destruct (Qeq_bool b s); [right |]; apply IH; assumption.
Qed.

Lemma nth_error_firstn_lt {A} (n i : nat) (l : list A) :
  (i < n)%nat -> nth_error (firstn n l) i = nth_error l i.
Proof.
  revert n l. induction i as [| i IH]; intros [| n] [| a l] H; simpl; try lia; try reflexivity.
  apply IH. lia.
Qed.

Lemma filter_short {A} (f : A -> bool) (l : list A) :
  (length (filter f l) < length l)%nat -> exists z, In z l /\ f z = false.
Proof.
  induction l as [| a l IH]; simpl; [lia |].
  destruct (f a) eqn:E; simpl; intros H.
  - destruct IH as (z & Hz & Hf); [lia |]. exists z. auto.
  - exists a. auto.
Qed.

Lemma filter_full {A} (f : A -> bool) (l : list A) :
  length (filter f l) = length l -> forall z, In z l -> f z = true.
Proof.
  intros H z Hz. destruct (f z) eqn:E; [reflexivity | exfalso].
  assert (Hlt : (length (filter f l) < length l)%nat).
  { clear H. induction l as [| a l IH]; [destruct Hz |]. simpl.
    destruct Hz as [-> | Hz].
    - rewrite E. pose proof (filter_length_le f l). lia.
    - destruct (f a); simpl; specialize (IH Hz); lia. }
  lia.
Qed.

Lemma filter_insert_slot_out (f : Faiss.slot -> bool) (x : Faiss.slot) (l : list Faiss.slot) :
  f x = false -> filter f (Faiss.insert_slot x l) = filter f l.
Proof.
  intros Hx. induction l as [| y l IH]; simpl; [rewrite Hx; reflexivity |].
  destruct (Faiss.lex_lt y x); simpl; [rewrite Hx; reflexivity |].
  rewrite IH. reflexivity.
Qed.

Lemma filter_removelast_out (f : Faiss.slot -> bool) (l : list Faiss.slot) (w : Faiss.slot) :
  Faiss.worst l = Some w -> f w = false -> filter f (removelast l) = filter f l.
Proof.
  intros Ew Hw. rewrite (worst_last l w Ew) at 2. rewrite filter_app. simpl.
  rewrite Hw, app_nil_r. reflexivity.
Qed.

(** a slot above every slot of the buffer goes first *)
Lemma insert_slot_front (x : Faiss.slot) (l : list Faiss.slot) :
  (forall y, In y l -> Faiss.lex_lt y x = true) -> Faiss.insert_slot x l = x :: l.
Proof.
  destruct l as [| y l]; intros H; simpl; [reflexivity |].
  rewrite (H y (or_introl eq_refl)). reflexivity.
Qed.

Lemma max_exists (V : Type) (ip : V -> V -> Q) (q : V) (xb : list V) :
  xb <> [] -> exists j0 y0, nth_error xb j0 = Some y0 /\
    forall j y, nth_error xb j = Some y -> (ip q y <= ip q y0)%Q.
Proof.
  induction xb as [| x xb IH]; intros Hne; [contradiction |].
  destruct xb as [| x' xb'].
  - exists 0%nat, x. split; [reflexivity |].
    intros [| j] y Hj; simpl in Hj; [injection Hj as <-; apply Qle_refl | destruct j; discriminate].
  - destruct IH as (j0 & y0 & Hj0 & Hmax); [discriminate |].
    destruct (Qlt_le_dec (ip q y0) (ip q x)) as [Hlt | Hge].
    + exists 0%nat, x. split; [reflexivity |].
      intros [| j] y Hj; simpl in Hj; [injection Hj as <-; apply Qle_refl |].
      specialize (Hmax j y Hj). lra.
    + exists (S j0), y0. split; [exact Hj0 |].
      intros [| j] y Hj; simpl in Hj; [injection Hj as <-; exact Hge |].
      exact (Hmax j y Hj).
Qed.

Section Rank1.
Variable V : Type.
Variable ip : V -> V -> Q.
Variable q : V.
Variable k : nat.
(** the greatest score of the index *)
Variable M : Q.
Hypothesis HMn : (Faiss.neutral < M)%Q.

Definition isM (s : Faiss.slot) : bool := Qeq_bool (snd s) M.

(** after the prefix [xb], for every stored score at most [M]: the slots
    of score [M] are those of the first [k] positions of score [M], the
    larger position first *)
Definition rank_inv (xb : list V) (buf : list Faiss.slot) : Prop :=
  handler_inv (Z.of_nat (length xb)) buf /\ length buf = k /\
  Forall (fun s => (snd s <= M)%Q) buf /\
  (forall s, In s buf -> s = pad_slot \/ stored_slot V ip q xb s) /\
  map fst (filter isM buf) = map Z.of_nat (rev (firstn k (positions_eq M (map (ip q) xb)))).

Lemma rank_inv_init : rank_inv [] (repeat pad_slot k).
Proof.
  split; [apply handler_inv_init |].
  split; [apply repeat_length |].
  split; [apply Forall_forall; intros s Hs; apply repeat_spec in Hs; subst s; simpl; lra |].
  split; [intros s Hs; left; apply repeat_spec in Hs; exact Hs |].
  assert (E : filter isM (repeat pad_slot k) = []).
  { induction k as [| j IH]; simpl; [reflexivity |].
    unfold isM at 1. simpl.
    destruct (Qeq_bool Faiss.neutral M) eqn:E; [apply Qeq_bool_iff in E; lra | exact IH]. }
  rewrite E. unfold positions_eq. simpl. rewrite firstn_nil. reflexivity.
Qed.

Lemma rank_inv_push (xb : list V) (x : V) (buf : list Faiss.slot) :
  (0 < k)%nat -> (ip q x <= M)%Q -> rank_inv xb buf ->
  rank_inv (xb ++ [x]) (Faiss.push buf (Z.of_nat (length xb), ip q x)).
Proof.
  intros Hk HxM (Hinv & Hlen & Hle & Hst & Hf).
  set (n := length xb) in *.
  set (pos := positions_eq M (map (ip q) xb)) in *.
  assert (Hpos : positions_eq M (map (ip q) (xb ++ [x]))
                 = pos ++ (if Qeq_bool (ip q x) M then [n] else [])).
  { unfold positions_eq, pos. rewrite map_app, positions_from_app, length_map. simpl.
    fold n. destruct (Qeq_bool (ip q x) M); reflexivity. }
  assert (Hinv' : handler_inv (Z.of_nat (length (xb ++ [x])))
                    (Faiss.push buf (Z.of_nat n, ip q x))).
  { rewrite length_app. simpl. fold n.
    replace (Z.of_nat (n + 1)) with (Z.of_nat n + 1)%Z by lia.
    apply push_inv, Hinv. }
  assert (Hlen' : length (Faiss.push buf (Z.of_nat n, ip q x)) = k)
    by (rewrite push_length; exact Hlen).
  assert (Hcnt : length (filter isM buf) = length (firstn k pos)).
  { pose proof (f_equal (@length Z) Hf) as H. rewrite !length_map, length_rev in H. exact H. }
  destruct (worst_some buf) as [w Ew]; [intros ->; simpl in Hlen; lia |].
  pose proof Hinv as [Hs Hlab]. rewrite Forall_forall in Hlab, Hle.
  assert (Hwb : In w buf) by (apply worst_in; exact Ew).
  assert (Hst_keep : forall s, In s buf -> s = pad_slot \/ stored_slot V ip q (xb ++ [x]) s).
  { intros s Hin. destruct (Hst s Hin) as [H | H]; [left; exact H | right; apply stored_slot_snoc, H]. }
  assert (Hle_ins : Forall (fun s => (snd s <= M)%Q)
                      (Faiss.insert_slot (Z.of_nat n, ip q x) (removelast buf))).
  { apply Forall_forall. intros s Hin. apply insert_slot_in in Hin as [-> | Hin]; [exact HxM |].
    apply Hle, removelast_in, Hin. }
  assert (Hst_ins : forall s, In s (Faiss.insert_slot (Z.of_nat n, ip q x) (removelast buf)) ->
                      s = pad_slot \/ stored_slot V ip q (xb ++ [x]) s).
  { intros s Hin. apply insert_slot_in in Hin as [-> | Hin].
    - right. exists n, x. split; [apply nth_error_snoc_last | reflexivity].
    - apply Hst_keep, removelast_in, Hin. }
  unfold Faiss.push in *. rewrite Ew in *. cbn [snd] in *.
  destruct (Qeq_bool (ip q x) M) eqn:EM.
  - (* x scores M *)
    apply Qeq_bool_iff in EM.
    destruct (Nat.lt_ge_cases (length pos) k) as [Hlt | Hge].
    + (* fewer than k slots of score M: the last slot scores below M, x goes first *)
      assert (Hc : (length (filter isM buf) < length buf)%nat).
      { rewrite Hlen, Hcnt, firstn_all2 by lia. exact Hlt. }
      destruct (filter_short _ _ Hc) as (z & Hz & Hzf).
      assert (HzM : (snd z < M)%Q).
      { apply Qeq_bool_neq in Hzf. specialize (Hle z Hz).
        destruct (Qle_lt_or_eq _ _ Hle) as [H | H]; [exact H | contradiction]. }
      pose proof (worst_le _ _ _ Hs Ew Hz) as Hwz.
      assert (Hq : Qltb (snd w) (ip q x) = true).
      { unfold Qltb. apply negb_true_iff. destruct (Qle_bool (ip q x) (snd w)) eqn:E; [| reflexivity].
        apply Qle_bool_iff in E. lra. }
      assert (Hwm : isM w = false).
      { unfold isM. destruct (Qeq_bool (snd w) M) eqn:E; [| reflexivity].
        apply Qeq_bool_iff in E. lra. }
      rewrite Hq in *.
      assert (Hfront : Faiss.insert_slot (Z.of_nat n, ip q x) (removelast buf)
                       = (Z.of_nat n, ip q x) :: removelast buf).
      { apply insert_slot_front. intros y Hy.
        pose proof (Hlab y (removelast_in _ _ Hy)) as Hy'.
        rewrite lex_lt_fresh by (simpl; exact Hy'). apply Qle_bool_iff. simpl.
        specialize (Hle y (removelast_in _ _ Hy)). lra. }
      rewrite Hfront in *.
      split; [exact Hinv' |]. split; [exact Hlen' |]. split; [exact Hle_ins |].
      split; [exact Hst_ins |].
      assert (E1 : Qeq_bool (ip q x) M = true) by (apply Qeq_bool_iff; exact EM).
      assert (E1' : isM (Z.of_nat n, ip q x) = true) by exact E1.
      cbn [filter]. rewrite E1', (filter_removelast_out _ _ _ Ew Hwm). cbn [map]. rewrite Hf, Hpos. try rewrite E1.
      rewrite firstn_all2 by lia. rewrite firstn_all2 by (rewrite length_app; simpl; lia).
      rewrite rev_app_distr. reflexivity.
    + (* k slots of score M already: x is left out *)
      assert (Hfull : length (filter isM buf) = length buf).
      { rewrite Hlen, Hcnt, length_firstn. lia. }
      pose proof (filter_full _ _ Hfull w Hwb) as Hw. unfold isM in Hw. apply Qeq_bool_iff in Hw.
      assert (Hq : Qltb (snd w) (ip q x) = false).
      { unfold Qltb. apply negb_false_iff, Qle_bool_iff. lra. }
      rewrite Hq in *.
      split; [exact Hinv' |]. split; [exact Hlen |]. split; [apply Forall_forall; exact Hle |].
      split; [exact Hst_keep |].
      rewrite Hf, Hpos.
      assert (E1 : Qeq_bool (ip q x) M = true) by (apply Qeq_bool_iff; exact EM).
      try rewrite E1. rewrite firstn_app. replace (k - length pos)%nat with 0%nat by lia.
      simpl. rewrite app_nil_r. reflexivity.
  - (* x scores below M: the slots of score M stay *)
    unfold rank_inv. rewrite Hpos. try rewrite EM. rewrite app_nil_r.
    destruct (Qltb (snd w) (ip q x)) eqn:Hq.
    + assert (Hwm : isM w = false).
      { unfold Qltb in Hq. apply negb_true_iff, Qle_bool_false in Hq.
        unfold isM. destruct (Qeq_bool (snd w) M) eqn:E; [| reflexivity].
        apply Qeq_bool_iff in E. lra. }
      split; [exact Hinv' |]. split; [exact Hlen' |]. split; [exact Hle_ins |].
      split; [exact Hst_ins |].
      rewrite filter_insert_slot_out by (unfold isM; simpl; exact EM).
      rewrite (filter_removelast_out _ _ _ Ew Hwm). exact Hf.
    + split; [exact Hinv' |]. split; [exact Hlen |]. split; [apply Forall_forall; exact Hle |].
      split; [exact Hst_keep | exact Hf].
Qed.

Lemma rank_inv_search (xb : list V) :
  (0 < k)%nat -> (forall x, In x xb -> (ip q x <= M)%Q) ->
  rank_inv xb (Faiss.search V ip xb q k).
Proof.
  intros Hk. induction xb as [| x xb IH] using rev_ind; intros HM.
  - apply rank_inv_init.
  - unfold Faiss.search in *. rewrite scan_app. simpl.
    apply rank_inv_push; [exact Hk | apply HM, in_or_app; right; left; reflexivity |].
    apply IH. intros y Hy. apply HM, in_or_app. left; exact Hy.
Qed.

End Rank1.

(** rank 1 of the search: the [min(k, c)]-th of the [c] positions of the
    greatest score *)
Lemma search_rank1_gen (V : Type) (ip : V -> V -> Q) (xb : list V) (q : V) (k : nat) :
  (0 < k)%nat ->
  (exists j y, nth_error xb j = Some y /\ (Faiss.neutral < ip q y)%Q) ->
  exists p x rest,
    Faiss.search V ip xb q k = (Z.of_nat p, ip q x) :: rest /\
    nth_error xb p = Some x /\
    (forall j y, nth_error xb j = Some y -> (ip q y <= ip q x)%Q) /\
    nth_error (positions_eq (ip q x) (map (ip q) xb))
      (Nat.min k (length (positions_eq (ip q x) (map (ip q) xb))) - 1) = Some p.
Proof.
  intros Hk (j1 & y1 & Hj1 & Hy1).
  destruct (max_exists V ip q xb) as (j0 & y0 & Hj0 & Hmax); [intros ->; destruct j1; discriminate |].
  set (M := ip q y0).
  assert (HMn : (Faiss.neutral < M)%Q) by (specialize (Hmax j1 y1 Hj1); unfold M; lra).
  assert (HM : forall x, In x xb -> (ip q x <= M)%Q).
  { intros x Hx. apply In_nth_error in Hx as [j Hj]. exact (Hmax j x Hj). }
  destruct (rank_inv_search V ip q k M HMn xb Hk HM) as ((Hs & _) & Hlen & Hle & Hst & Hf).
  set (pos := positions_eq M (map (ip q) xb)) in *.
  assert (Hin0 : In j0 pos).
  { unfold pos, positions_eq. apply (positions_from_in 0 j0 M (ip q y0)); [| apply Qeq_refl].
    rewrite nth_error_map, Hj0. reflexivity. }
  assert (HL : (1 <= length (firstn k pos))%nat).
  { rewrite length_firstn. destruct pos; [destruct Hin0 | simpl; lia]. }
  destruct (rev (firstn k pos)) as [| p' rest'] eqn:Er.
  { apply (f_equal (@length nat)) in Er. rewrite length_rev in Er. simpl in Er. lia. }
  destruct (Faiss.search V ip xb q k) as [| h t] eqn:Eb; [simpl in Hlen; lia |].
  rewrite Forall_forall in Hle.
  (* the first slot scores M *)
  destruct (filter (isM M) (h :: t)) as [| z zs] eqn:Ez; [discriminate |].
  assert (Hz : In z (h :: t) /\ isM M z = true).
  { apply filter_In. rewrite Ez. left; reflexivity. }
  destruct Hz as [Hz Hzm]. unfold isM in Hzm. apply Qeq_bool_iff in Hzm.
  pose proof (head_ge h t z Hs Hz) as Hzh.
  pose proof (Hle h (or_introl eq_refl)) as HhM.
  assert (HhM' : (snd h == M)%Q) by lra.
  assert (Hhm : isM M h = true) by (apply Qeq_bool_iff; exact HhM').
  cbn [filter] in Ez. rewrite Hhm in Ez. injection Ez as <- _.
  cbn [map] in Hf. injection Hf as Hfh _.
  destruct (Hst h (or_introl eq_refl)) as [Hpad | (p & x & Hp & Hh)].
  { rewrite Hpad in HhM'. simpl in HhM'. lra. }
  rewrite Hh in Hfh, HhM'. simpl in Hfh, HhM'. apply Nat2Z.inj in Hfh. subst p'.
  exists p, x, t. rewrite Hh.
  split; [reflexivity |]. split; [exact Hp |]. split.
  - intros j y Hj. specialize (Hmax j y Hj). fold M in Hmax. lra.
  - unfold positions_eq. rewrite (positions_from_Qeq 0 (ip q x) M _ HhM'). fold (positions_eq M (map (ip q) xb)). fold pos.
    rewrite <- length_firstn.
    rewrite <- nth_error_firstn_lt with (n := k)
      by (rewrite length_firstn; lia).
    rewrite <- (rev_involutive (firstn k pos)), Er. simpl.
    rewrite length_app, length_rev. simpl.
    replace (length rest' + 1 - 1)%nat with (length (rev rest')) by (rewrite length_rev; lia).
    apply nth_error_snoc_last.
Qed.

Lemma Qsq_diff_nonneg (a b : Q) : (0 <= (a - b) * (a - b))%Q.
Proof.
  pose proof (Qsqr_nonneg (a - b)) as H.
  change ((a - b) ^ 2)%Q with ((a - b) * (a - b))%Q in H. exact H.
Qed.

Lemma qdot_two_le (x y : list Q) :
  length x = length y -> (2 * qdot x y <= qdot x x + qdot y y)%Q.
Proof.
  revert y. induction x as [| a x IH]; intros [| b y] Hl; cbn [qdot length] in *.
  - lra.
  - discriminate.
  - discriminate.
  - injection Hl as Hl. specialize (IH y Hl).
    pose proof (Qsq_diff_nonneg a b). lra.
Qed.

Lemma qdot_two_eq (x y : list Q) :
  length x = length y -> (2 * qdot x y == qdot x x + qdot y y)%Q -> Forall2 Qeq x y.
Proof.
  revert y. induction x as [| a x IH]; intros [| b y] Hl Heq; cbn [qdot length] in *.
  - constructor.
  - discriminate.
  - discriminate.
  - injection Hl as Hl.
    pose proof (qdot_two_le x y Hl) as Hr.
    pose proof (Qsq_diff_nonneg a b) as Hab.
    pose proof (Qsq_diff_nonneg (qdot x y) (qdot x y)).
    assert (Hab0 : ((a - b) * (a - b) == 0)%Q) by lra.
    constructor.
    + apply Qmult_integral in Hab0. destruct Hab0; lra.
    + apply IH; [exact Hl | lra].
Qed.

(** C3 (counterexample): in float32 the self-match can lose rank 1 and its
    score can differ from 1.0.  [near_w = (1, 2^-13)] and [near_v = (1, 0)]
    are both left unchanged by the float32 normalization and both have
    float32 self inner product exactly 1.0; with [near_w] stored first,
    searching for [near_v] with k = 1 ranks position 0 ([near_w]) first,
    with score 1.0 (a tie), not the position 1 of [near_v].  And the
    float32 normalization [u] of [(1, 1)] stored alone scores [1 - 2^-24]
    against itself, not 1.0. *)
Lemma self_match_counterexample :
  map Qred (f32_normalize near_w) = map Qred near_w /\
  map Qred (f32_normalize near_v) = map Qred near_v /\
  f32_dot near_w near_w == 1 /\ f32_dot near_v near_v == 1 /\
  nth_error [near_w; near_v] 1 = Some near_v /\ near_w <> near_v /\
  reduce_slots (Faiss.search _ f32_dot [near_w; near_v] near_v 1) = [(0%Z, 1%Q)] /\
  (let u := f32_normalize [1; 1]%Q in
   map fst (Faiss.search _ f32_dot [u] u 1) = [0%Z] /\
   ~ (snd (hd (0%Z, 0%Q) (Faiss.search _ f32_dot [u] u 1)) == 1)).
Proof.
  split; [vm_compute; reflexivity |].
  split; [vm_compute; reflexivity |].
  split; [vm_compute; reflexivity |].
  split; [vm_compute; reflexivity |].
  split; [reflexivity |].
  split; [unfold near_w, near_v; intros H; injection H as H; discriminate |].
  split; [vm_compute; reflexivity |].
  split; [vm_compute; reflexivity |].
  vm_compute. discriminate.
Qed.

(** C3 (amended): for [0 < k < 100], when some stored vector scores above
    FAISS's -FLT_MAX sentinel, rank 1 of [index.search(v, k)] is a position
    of greatest score, with that score: of the [c] positions of greatest
    score, in increasing order, the [min(k, c)]-th (the first one for
    k = 1, a later one when k >= 2 and several positions tie).  With exact
    arithmetic and unit vectors of the dimension of [v], for [v] stored in
    the index, that position holds a copy of [v], the score is exactly 1,
    and the position is the [min(k, c)]-th of the [c] positions of score 1. *)
Theorem search_rank1 :
  (forall (V : Type) (ip : V -> V -> Q) (xb : list V) (q : V) (k : nat),
     (0 < k)%nat -> (k < 100)%nat ->
     (exists j y, nth_error xb j = Some y /\ (Faiss.neutral < ip q y)%Q) ->
     exists p x rest,
       Faiss.search V ip xb q k = (Z.of_nat p, ip q x) :: rest /\
       nth_error xb p = Some x /\
       (forall j y, nth_error xb j = Some y -> (ip q y <= ip q x)%Q) /\
       nth_error (positions_eq (ip q x) (map (ip q) xb))
         (Nat.min k (length (positions_eq (ip q x) (map (ip q) xb))) - 1) = Some p) /\
  (forall (xb : list (list Q)) (v : list Q) (k : nat),
     (0 < k)%nat -> (k < 100)%nat ->
     (forall y, In y xb -> length y = length v /\ qdot y y == 1) ->
     In v xb ->
     exists p x rest,
       Faiss.search _ qdot xb v k = (Z.of_nat p, qdot v x) :: rest /\
       nth_error xb p = Some x /\ Forall2 Qeq v x /\ qdot v x == 1 /\
       nth_error (positions_eq 1 (map (qdot v) xb))
         (Nat.min k (length (positions_eq 1 (map (qdot v) xb))) - 1) = Some p).
Proof.
  split; [intros V ip xb q k Hk _ Hex; exact (search_rank1_gen V ip xb q k Hk Hex) |].
  intros xb v k Hk _ Hunit Hin.
  destruct (Hunit v Hin) as [_ Hvv].
  destruct (In_nth_error xb v Hin) as [j0 Hj0].
  assert (Hn : (Faiss.neutral < qdot v v)%Q).
  { rewrite Hvv. unfold Faiss.neutral, Faiss.flt_max. vm_compute. reflexivity. }
  destruct (search_rank1_gen _ qdot xb v k Hk (ex_intro _ j0 (ex_intro _ v (conj Hj0 Hn))))
    as (p & x & rest & Hs & Hx & Hle & Hpos).
  exists p, x, rest.
  assert (Hxin : In x xb) by (eapply nth_error_In; exact Hx).
  destruct (Hunit x Hxin) as [Hlx Hxx].
  pose proof (qdot_two_le v x (eq_sym Hlx)) as Hcs.
  pose proof (Hle j0 v Hj0) as Hge.
  assert (H1 : qdot v x == 1) by lra.
  split; [exact Hs |]. split; [exact Hx |].
  split; [apply qdot_two_eq; [exact (eq_sym Hlx) | lra] |].
  split; [exact H1 |].
  unfold positions_eq in *. rewrite <- (positions_from_Qeq 0 _ _ _ H1). exact Hpos.
Qed.

Lemma search_rank1_witness :
  exists p x rest,
    Faiss.search _ f32_dot [near_w; near_v; near_v] near_v 2%nat = (Z.of_nat p, f32_dot near_v x) :: rest /\
    nth_error [near_w; near_v; near_v] p = Some x.
Proof.
  destruct (proj1 search_rank1 _ f32_dot [near_w; near_v; near_v] near_v 2%nat)
    as (p & x & rest & H1 & H2 & _).
  - lia.
  - lia.
  - exists 1%nat, near_v. split; [reflexivity | vm_compute; reflexivity].
  - exists p, x, rest. split; [exact H1 | exact H2].
Defined.

(** ** The file system *)

Lemma fs_write_same {V} (m : fs V) (p : string) (f : file V) : fs_write m p f p = Some f.
Proof. unfold fs_write. rewrite String.eqb_refl. reflexivity. Qed.

Lemma fs_write_other {V} (m : fs V) (p p' : string) (f : file V) :
  p' <> p -> fs_write m p f p' = m p'.
Proof. intros H. unfold fs_write. apply String.eqb_neq in H. rewrite H. reflexivity. Qed.

Lemma META_JSON_IDS_NPY : META_JSON <> IDS_NPY.
Proof. unfold META_JSON, IDS_NPY. discriminate. Qed.
Lemma FAISS_PATH_IDS_NPY : FAISS_PATH <> IDS_NPY.
Proof. unfold FAISS_PATH, IDS_NPY. discriminate. Qed.
Lemma FAISS_PATH_META_JSON : FAISS_PATH <> META_JSON.
Proof. unfold FAISS_PATH, META_JSON. discriminate. Qed.
Lemma CSV_PATH_IDS_NPY : CSV_PATH <> IDS_NPY.
Proof. unfold CSV_PATH, IDS_NPY. discriminate. Qed.
Lemma CSV_PATH_META_JSON : CSV_PATH <> META_JSON.
Proof. unfold CSV_PATH, META_JSON. discriminate. Qed.
Lemma CSV_PATH_FAISS_PATH : CSV_PATH <> FAISS_PATH.
Proof. unfold CSV_PATH, FAISS_PATH. discriminate. Qed.

Create HintDb paths.
#[export] Hint Resolve META_JSON_IDS_NPY FAISS_PATH_IDS_NPY FAISS_PATH_META_JSON
  CSV_PATH_IDS_NPY CSV_PATH_META_JSON CSV_PATH_FAISS_PATH : paths.

Lemma save_file_eq {V} (m : fs V) (p : string) (f : file V) (e : PyError) :
  save_file m p f e =
    if match m p with Some Directory => true | _ => false end then Err e
    else Ok (fs_write m p f).
Proof. unfold save_file. destruct (m p) as [[] |]; reflexivity. Qed.

Lemma dir_match_spec {V} (o : option (file V)) :
  match o with Some Directory => true | _ => false end = true <-> o = Some Directory.
Proof. destruct o as [[] |]; split; congruence. Qed.



(** ** The build loop *)

Section BuildFacts.
Variable V : Type.
Variable encode : list Z -> V.
Variable normalize : V -> V.

Lemma meta_of_cons_ok (r : Row) (rows : list Row) (d : list (string * CardMeta)) (mt : CardMeta) :
  row_meta r = Ok mt -> meta_of (r :: rows) d = meta_of rows (dict_set (row_id r) mt d).
Proof. intros E. unfold meta_of. simpl. rewrite E. reflexivity. Qed.

Lemma build_rows_ok (m : fs V) (rows : list Row) (acc acc' : Acc V) :
  build_rows encode normalize m rows acc = Ok acc' ->
  acc_ids _ acc' = acc_ids _ acc ++ map row_id (filter (kept m) rows) /\
  length (acc_vecs _ acc') = (length (acc_vecs _ acc) + length (filter (kept m) rows))%nat /\
  acc_meta _ acc' = meta_of (filter (kept m) rows) (acc_meta _ acc) /\
  acc_log _ acc' = acc_log _ acc ++ map (fun r => skip_line (img_path r)) (filter (missing m) rows) /\
  (forall v, In v (acc_vecs _ acc') -> In v (acc_vecs _ acc) \/ exists px, v = normalize (encode px)) /\
  (forall r, In r rows -> row_ok m r).
Proof.
  revert acc. induction rows as [| r rows IH]; intros acc H; cbn [build_rows] in H.
  - injection H as <-. simpl. rewrite !app_nil_r.
    split; [reflexivity |]. split; [lia |]. split; [reflexivity |]. split; [reflexivity |].
    split; [intros v Hv; left; exact Hv | intros r []].
  - cbn [filter].
    destruct (m (img_path r)) as [f |] eqn:E; [destruct f; try discriminate |].
    + destruct (row_meta r) as [mt | e] eqn:Em; cbn [bind] in H; [| discriminate].
      assert (Hk : kept m r = true) by (unfold kept; rewrite E; reflexivity).
      assert (Hm : missing m r = false) by (unfold missing; rewrite E; reflexivity).
      rewrite Hk, Hm.
      destruct (IH _ H) as (H1 & H2 & H3 & H4 & H5 & H6); cbn [acc_ids acc_vecs acc_meta acc_log] in *.
      split; [rewrite H1, <- app_assoc; reflexivity |].
      split; [rewrite H2, length_app; simpl; lia |].
      split; [rewrite H3, (meta_of_cons_ok _ _ _ _ Em); reflexivity |].
      split; [exact H4 |].
      split.
      * intros v Hv. destruct (H5 v Hv) as [Hin | Hex]; [| right; exact Hex].
        apply in_app_or in Hin as [Hin | [<- | []]]; [left; exact Hin | right; eexists; reflexivity].
      * intros r' [<- | Hr']; [| exact (H6 r' Hr')].
        right. exists pixels, mt. split; [exact E | exact Em].
    + assert (Hk : kept m r = false) by (unfold kept; rewrite E; reflexivity).
      assert (Hm : missing m r = true) by (unfold missing; rewrite E; reflexivity).
      rewrite Hk, Hm.
      destruct (IH _ H) as (H1 & H2 & H3 & H4 & H5 & H6); cbn [acc_ids acc_vecs acc_meta acc_log] in *.
      split; [exact H1 |]. split; [exact H2 |]. split; [exact H3 |].
      split; [rewrite H4, <- app_assoc; reflexivity |].
      split; [exact H5 |].
      intros r' [<- | Hr']; [left; exact E | exact (H6 r' Hr')].
Qed.




End BuildFacts.

(** ** The metadata dict *)

Section Dict.
Context {A : Type}.

Lemma dict_set_keys (k k' : string) (v : A) (d : list (string * A)) :
  In k' (map fst (dict_set k v d)) <-> k' = k \/ In k' (map fst d).
Proof.
  induction d as [| [k0 v0] d IH]; simpl; [split; intros [H | []]; auto |].
  destruct (String.eqb_spec k k0) as [-> | Hne]; simpl.
  - split; [intros [H | H]; auto | intros [H | [H | H]]; subst; auto].
  - rewrite IH. split; [intros [H | [H | H]]; auto | intros [H | [H | H]]; auto].
Qed.

Lemma dict_set_nodup (k : string) (v : A) (d : list (string * A)) :
  NoDup (map fst d) -> NoDup (map fst (dict_set k v d)).
Proof.
  induction d as [| [k0 v0] d IH]; simpl; intros Hd.
  - repeat constructor. intros [].
  - inversion Hd as [| ? ? Hn Hd']; subst.
    destruct (String.eqb_spec k k0) as [-> | Hne]; simpl; constructor; auto.
    rewrite dict_set_keys. intros [-> | H]; [apply Hne; reflexivity | exact (Hn H)].
Qed.



Lemma dict_get_in (k : string) (d : list (string * A)) :
  In k (map fst d) -> exists v, dict_get k d = Some v.
Proof.
  induction d as [| [k0 v0] d IH]; simpl; [intros [] |].
  destruct (String.eqb_spec k k0) as [-> | Hne]; [eexists; reflexivity |].
  intros [H | H]; [congruence | exact (IH H)].
Qed.

End Dict.


Lemma meta_of_keys (rows : list Row) d k :
  (forall r, In r rows -> exists mt, row_meta r = Ok mt) ->
  (In k (map fst (meta_of rows d)) <-> In k (map row_id rows) \/ In k (map fst d)).
Proof.
  revert d. induction rows as [| r rows IH]; intros d Hok; [simpl; tauto |].
  destruct (Hok r (or_introl eq_refl)) as [mt Em].
  rewrite (meta_of_cons_ok _ _ _ _ Em), IH by (intros r' Hr'; apply Hok; right; exact Hr').
  rewrite dict_set_keys. simpl.
  split; intros H; decompose [or] H; subst; auto.
Qed.

Lemma meta_of_nodup (rows : list Row) d :
  NoDup (map fst d) -> NoDup (map fst (meta_of rows d)).
Proof.
  revert d. induction rows as [| r rows IH]; intros d Hd; [exact Hd |].
  unfold meta_of in *; simpl. apply IH.
  destruct (row_meta r); [apply dict_set_nodup |]; exact Hd.
Qed.



Lemma kept_row_meta {V} (m : fs V) (rows : list Row) :
  (forall r, In r rows -> row_ok m r) ->
  forall r, In r (filter (kept m) rows) -> exists mt, row_meta r = Ok mt.
Proof.
  intros Hok r Hr. apply filter_In in Hr as [Hr Hk].
  destruct (Hok r Hr) as [E | (px & mt & E & Em)]; [| exists mt; exact Em].
  unfold kept in Hk. rewrite E in Hk. discriminate.
Qed.

(** ** A successful build *)

(** a successful build read a non-empty CSV, kept at least one row, found no
    directory at the artifact paths and wrote the three artifacts *)
Lemma build_index_inline_ok (V : Type) (encode : list Z -> V) (normalize : V -> V)
      (m m' : fs V) (out : BuildOut V) :
  build_index_inline encode normalize m = Ok (m', out) ->
  exists rows acc,
    m CSV_PATH = Some (CsvFile rows) /\ rows <> [] /\
    build_rows encode normalize m rows (acc0 V) = Ok acc /\ acc_vecs _ acc <> [] /\
    artifacts_writable m /\
    out = Build_BuildOut _ (acc_ids _ acc) (acc_meta _ acc) (acc_vecs _ acc) (acc_log _ acc) /\
    m' = fs_write (fs_write (fs_write m IDS_NPY (NpyFile (acc_ids _ acc)))
                            META_JSON (JsonFile (acc_meta _ acc)))
                  FAISS_PATH (FaissFile (acc_vecs _ acc)).
Proof.
  unfold build_index_inline, read_csv.
  destruct (m CSV_PATH) as [[] |] eqn:Ecsv; cbn [bind]; try discriminate.
  destruct (Nat.eqb_spec (length rows) 0) as [H0 | H0]; [discriminate |].
  destruct (build_rows encode normalize m rows (acc0 V)) as [acc | e] eqn:Eb; cbn [bind];
    [| discriminate].
  destruct (acc_vecs V acc) as [| v vs] eqn:Ev; [discriminate |].
  rewrite save_file_eq.
  destruct (match m IDS_NPY with Some Directory => true | _ => false end) eqn:D1;
    cbn [bind]; [discriminate |].
  rewrite save_file_eq, fs_write_other by auto with paths.
  destruct (match m META_JSON with Some Directory => true | _ => false end) eqn:D2;
    cbn [bind]; [discriminate |].
  rewrite save_file_eq, !fs_write_other by auto with paths.
  destruct (match m FAISS_PATH with Some Directory => true | _ => false end) eqn:D3;
    cbn [bind]; [discriminate |].
  intros H. injection H as <- <-.
  exists rows, acc. rewrite Ev.
  split; [reflexivity |]. split; [intros ->; apply H0; reflexivity |].
  split; [exact Eb |]. split; [discriminate |].
  split; [| split; reflexivity].
  split; [| split]; intros Hd; apply dir_match_spec in Hd; congruence.
Qed.



(** the ids, vectors and metadata of a successful build *)
Lemma build_out_facts (V : Type) (encode : list Z -> V) (normalize : V -> V)
      (m m' : fs V) (out : BuildOut V) :
  build_index_inline encode normalize m = Ok (m', out) ->
  exists rows, m CSV_PATH = Some (CsvFile rows) /\
    out_ids _ out = map row_id (filter (kept m) rows) /\
    length (out_vecs _ out) = length (filter (kept m) rows) /\
    out_meta _ out = meta_of (filter (kept m) rows) [] /\
    out_log _ out = map (fun r => skip_line (img_path r)) (filter (missing m) rows) /\
    (forall v, In v (out_vecs _ out) -> exists px, v = normalize (encode px)) /\
    m' IDS_NPY = Some (NpyFile (out_ids _ out)) /\
    m' META_JSON = Some (JsonFile (out_meta _ out)) /\
    m' FAISS_PATH = Some (FaissFile (out_vecs _ out)) /\
    (forall r, In r rows -> row_ok m r) /\
    artifacts_writable m.
Proof.
  intros H.
  destruct (build_index_inline_ok _ _ _ _ _ _ H)
    as (rows & acc & Hcsv & _ & Hb & _ & HW & -> & ->).
  destruct (build_rows_ok _ _ _ _ _ _ _ Hb) as (E1 & E2 & E3 & E4 & E5 & E6).
  exists rows. simpl in *.
  split; [exact Hcsv |]. split; [exact E1 |]. split; [exact E2 |]. split; [exact E3 |].
  split; [exact E4 |].
  split; [intros v Hv; destruct (E5 v Hv) as [[] | Hex]; exact Hex |].
  split; [rewrite !fs_write_other, fs_write_same by auto with paths; reflexivity |].
  split; [rewrite fs_write_other, fs_write_same by auto with paths; reflexivity |].
  split; [apply fs_write_same |].
  split; [exact E6 | exact HW].
Qed.


(** C4 (counterexample): two catalog rows with the same id "sv3-1", both
    with an existing image, give an id sequence and a vector matrix of
    length 2 but a metadata mapping with a single entry. *)
Lemma duplicate_id_counterexample :
  exists m' out,
    build_index_inline enc32 f32_normalize dup_fs = Ok (m', out) /\
    out_ids _ out = ["sv3-1"; "sv3-1"]%string /\ length (out_vecs _ out) = 2%nat /\
    length (out_meta _ out) = 1%nat.
Proof.
  eexists _, _. split; [vm_compute; reflexivity |].
  repeat split; reflexivity.
Qed.

Lemma build_meta_keys (V : Type) (encode : list Z -> V) (normalize : V -> V)
      (m m' : fs V) (out : BuildOut V) :
  build_index_inline encode normalize m = Ok (m', out) ->
  (forall cid, In cid (map fst (out_meta _ out)) <-> In cid (out_ids _ out)) /\
  NoDup (map fst (out_meta _ out)).
Proof.
  intros H.
  destruct (build_out_facts _ _ _ _ _ _ H)
    as (rows & _ & Hids & _ & Hmeta & _ & _ & _ & _ & _ & Hok & _).
  split.
  - intros cid. rewrite Hmeta, meta_of_keys, Hids by (apply kept_row_meta, Hok). simpl. tauto.
  - rewrite Hmeta. apply meta_of_nodup. constructor.
Qed.

(** C4 (amended): after a successful build, the persisted id sequence and
    vector matrix have the same length, every id of the sequence has a
    metadata record, the metadata keys are distinct ids of the sequence, and
    the metadata count equals the id count exactly when the ids are
    pairwise distinct. *)
Theorem build_artifacts_consistent (V : Type) (encode : list Z -> V) (normalize : V -> V)
        (m m' : fs V) (out : BuildOut V) :
  build_index_inline encode normalize m = Ok (m', out) ->
  m' IDS_NPY = Some (NpyFile (out_ids _ out)) /\
  m' META_JSON = Some (JsonFile (out_meta _ out)) /\
  m' FAISS_PATH = Some (FaissFile (out_vecs _ out)) /\
  length (out_ids _ out) = length (out_vecs _ out) /\
  (forall cid, In cid (out_ids _ out) -> exists c, dict_get cid (out_meta _ out) = Some c) /\
  (forall cid, In cid (map fst (out_meta _ out)) -> In cid (out_ids _ out)) /\
  NoDup (map fst (out_meta _ out)) /\
  (NoDup (out_ids _ out) <-> length (out_meta _ out) = length (out_ids _ out)).
Proof.
  intros H.
  destruct (build_out_facts _ _ _ _ _ _ H)
    as (rows & _ & Hids & Hvecs & _ & _ & _ & H1 & H2 & H3 & _).
  destruct (build_meta_keys _ _ _ _ _ _ H) as [Hkeys Hnd].
  split; [exact H1 |]. split; [exact H2 |]. split; [exact H3 |].
  split; [rewrite Hids, Hvecs, length_map; reflexivity |].
  split; [intros cid Hc; apply dict_get_in, Hkeys, Hc |].
  split; [intros cid Hc; apply Hkeys, Hc |].
  split; [exact Hnd |].
  rewrite <- (length_map fst (out_meta _ out)).
  split.
  - intros Hi. apply Nat.le_antisymm.
    + apply NoDup_incl_length; [exact Hnd | intros c Hc; apply Hkeys, Hc].
    + apply NoDup_incl_length; [exact Hi | intros c Hc; apply Hkeys, Hc].
  - intros Hl. eapply NoDup_incl_NoDup; [exact Hnd | lia |].
    intros c Hc; apply Hkeys, Hc.
Qed.

Lemma build_artifacts_consistent_witness :
  build_index_inline enc32 f32_normalize demo_fs = Ok (demo_built, demo_out) /\
  length (out_meta _ demo_out) = length (out_ids _ demo_out).
Proof.
  assert (E : build_index_inline enc32 f32_normalize demo_fs = Ok (demo_built, demo_out))
    by (vm_compute; reflexivity).
  split; [exact E |].
  apply (build_artifacts_consistent _ _ _ _ _ _ E).
  vm_compute. constructor; [simpl; intros [H | []]; discriminate | repeat constructor; intros []].
Defined.







(** ** Writing id_to_meta.json *)

Lemma run_writes (p : string) (blocks : list string) :
  forall (d : Disk.disk) (s : string), d p = Some s ->
  forall p', Disk.run d (map (Disk.WriteBlock p) blocks) p' =
    if String.eqb p' p then Some (fold_left String.append blocks s) else d p'.
Proof.
  induction blocks as [| b blocks IH]; intros d s Hd p'; simpl.
  - destruct (String.eqb_spec p' p) as [-> | _]; [exact Hd | reflexivity].
  - unfold Disk.run in *. simpl. rewrite Hd.
    rewrite (IH (Disk.upd d p (String.append s b)) (String.append s b)).
    + unfold Disk.upd. destruct (String.eqb p' p); reflexivity.
    + unfold Disk.upd. rewrite String.eqb_refl. reflexivity.
Qed.

Lemma crash_after_dump (n : nat) (d : Disk.disk) (p : string) (blocks : list string) (p' : string) :
  Disk.crash_after n d (Disk.json_dump_ops p blocks) p' =
    match n with
    | O => d p'
    | S k => if String.eqb p' p
             then Some (fold_left String.append (firstn k blocks) EmptyString)
             else d p'
    end.
Proof.
  destruct n as [| k]; [reflexivity |].
  unfold Disk.crash_after, Disk.json_dump_ops. cbn [firstn].
  rewrite firstn_map.
  change (Disk.run d (Disk.OpenTrunc p :: map (Disk.WriteBlock p) (firstn k blocks)))
    with (Disk.run (Disk.upd d p EmptyString) (map (Disk.WriteBlock p) (firstn k blocks))).
  rewrite (run_writes p (firstn k blocks) _ EmptyString).
  - unfold Disk.upd. destruct (String.eqb p' p); reflexivity.
  - unfold Disk.upd. rewrite String.eqb_refl. reflexivity.
Qed.

(** C6 (counterexample): id_to_meta.json is opened with mode "w", which
    truncates it in place.  A crash once the file is open, before any block
    of the new mapping is written, leaves the empty text: neither the
    previous mapping nor the new one. *)
Lemma metadata_crash_counterexample :
  old_disk META_JSON = Some old_meta_text /\
  Disk.crash_after 1%nat old_disk (Disk.json_dump_ops META_JSON ["{"%string; "}"%string])
    META_JSON = Some EmptyString /\
  EmptyString <> old_meta_text /\
  EmptyString <> String.append "{" "}".
Proof. repeat split; vm_compute; congruence. Qed.

(** C6 (amended): [json.dump] into [open(META_JSON, "w")] writes the
    mapping in place, with no temporary file and no rename.  Before the
    open the reader sees the previous contents; after the open and [k]
    written blocks it sees exactly the concatenation of the first [k]
    blocks, so the previous contents are gone and a crash leaves a
    truncated prefix of the new text.  Other files are untouched. *)
Theorem metadata_write_in_place (n : nat) (d : Disk.disk) (blocks : list string) :
  Disk.crash_after n d (Disk.json_dump_ops META_JSON blocks) META_JSON =
    match n with
    | O => d META_JSON
    | S k => Some (fold_left String.append (firstn k blocks) EmptyString)
    end /\
  forall p', p' <> META_JSON ->
    Disk.crash_after n d (Disk.json_dump_ops META_JSON blocks) p' = d p'.
Proof.
  split.
  - rewrite crash_after_dump. destruct n; [reflexivity |].
    rewrite String.eqb_refl. reflexivity.
  - intros p' Hp'. rewrite crash_after_dump.
    apply String.eqb_neq in Hp'. rewrite Hp'. destruct n; reflexivity.
Qed.

(** ** Normalization *)

Lemma sumsq_R_nonneg (z : list R) : (0 <= sumsq_R z)%R.
Proof.
  induction z as [| a z IH]; simpl; [lra |].
  pose proof (Rle_0_sqr a) as Ha. unfold Rsqr in Ha. lra.
Qed.

Lemma sumsq_R_div (c : R) (z : list R) :
  c <> 0%R -> sumsq_R (map (fun a => (a / c)%R) z) = (sumsq_R z / (c * c))%R.
Proof.
  intros Hc. induction z as [| a z IH]; simpl; [field; exact Hc |].
  rewrite IH. field. exact Hc.
Qed.

Lemma normalize_R_unit (z : list R) : sumsq_R z <> 0%R -> sumsq_R (normalize_R z) = 1%R.
Proof.
  intros H. pose proof (sumsq_R_nonneg z) as H0.
  assert (Hp : (0 < sumsq_R z)%R).
  { destruct H0 as [H0 | H0]; [exact H0 | symmetry in H0; contradiction]. }
  pose proof (sqrt_lt_R0 _ Hp) as Hs.
  unfold normalize_R. rewrite sumsq_R_div by lra.
  rewrite sqrt_sqrt by lra. field. exact H.
Qed.

Lemma enc_R_nonzero (px : list Z) : sumsq_R (enc_R px) <> 0%R.
Proof.
  unfold enc_R. cbn [map sumsq_R fold_right].
  pose proof (sumsq_R_nonneg (map IZR px)) as H. unfold sumsq_R in H.
  change (IZR 1) with 1%R. apply Rgt_not_eq. lra.
Qed.

(** C8 (counterexample): the build normalizes in float32.  The raw
    embedding [1, 1] is stored as [u] = [0x0.b504f3; 0x0.b504f3], whose
    exact squared norm is not 1 and whose float32 self inner product is
    1 - 2^-24. *)
Lemma unit_norm_counterexample :
  match build_index_inline enc32 f32_normalize diag_fs with
  | Ok (_, out) => out_vecs _ out = [f32_normalize [1; 1]%Q]
  | Err _ => False
  end /\
  ~ (qdot (f32_normalize [1; 1]%Q) (f32_normalize [1; 1]%Q) == 1)%Q /\
  (f32_dot (f32_normalize [1; 1]%Q) (f32_normalize [1; 1]%Q) == 1 - (1 # 16777216))%Q.
Proof.
  split; [vm_compute; reflexivity |].
  split; [intro H; vm_compute in H; discriminate | vm_compute; reflexivity].
Qed.

(** C8 (amended): both the build and the query divide the raw embedding by
    its L2 norm.  In exact arithmetic, for a generator that never returns
    the zero vector, every vector the build stores in the index and every
    query vector has squared norm exactly 1. *)
Theorem normalize_unit_norm (encode : list Z -> list R)
        (Henc : forall px, sumsq_R (encode px) <> 0%R) :
  (forall m m' out, build_index_inline encode normalize_R m = Ok (m', out) ->
     m' FAISS_PATH = Some (FaissFile (out_vecs _ out)) /\
     forall v, In v (out_vecs _ out) -> sumsq_R v = 1%R) /\
  (forall m p v, query_vector encode normalize_R m p = Ok v -> sumsq_R v = 1%R).
Proof.
  split.
  - intros m m' out H.
    destruct (build_out_facts _ _ _ _ _ _ H) as (rows & _ & _ & _ & _ & _ & Hv & _ & _ & Hf & _).
    split; [exact Hf |].
    intros v Hin. destruct (Hv v Hin) as [px ->]. apply normalize_R_unit, Henc.
  - intros m p v H. unfold query_vector in H.
    destruct (m p) as [f |]; [destruct f |]; try discriminate.
    injection H as <-. apply normalize_R_unit, Henc.
Qed.

Lemma normalize_unit_norm_witness :
  query_vector enc_R normalize_R real_fs path_a = Ok (normalize_R (enc_R [3; 4])) /\
  sumsq_R (normalize_R (enc_R [3; 4])) = 1%R.
Proof.
  split; [reflexivity |].
  apply (proj2 (normalize_unit_norm enc_R enc_R_nonzero) real_fs path_a).
  reflexivity.
Defined.

(** ** Rebuilding *)




(** ** The result loop *)









(** ** Loading the artifacts *)




(** ** The FAISS result beyond rank 1 *)

(** X1: for [0 < k < 100], every pair of [index.search] is the padding or
    a stored position with its own score, and every stored vector not
    returned scores at most every returned pair. *)
Theorem search_top_k (V : Type) (ip : V -> V -> Q) (xb : list V) (q : V) (k : nat) :
  (0 < k)%nat -> (k < 100)%nat ->
  (forall s, In s (Faiss.search V ip xb q k) ->
     s = pad_slot \/ exists p x, nth_error xb p = Some x /\ s = (Z.of_nat p, ip q x)) /\
  (forall p x, nth_error xb p = Some x -> ~ In (Z.of_nat p) (map fst (Faiss.search V ip xb q k)) ->
     forall s, In s (Faiss.search V ip xb q k) -> (ip q x <= snd s)%Q).
Proof.
  intros _ _.
  destruct (topk_inv_search V ip q xb k) as (_ & Hst & Hex).
  split; [exact Hst | exact Hex].
Qed.

Lemma search_top_k_witness :
  ~ In 1%Z (map fst (Faiss.search _ f32_dot [[1; 0]; [0; 1]]%Q [1; 0]%Q 1)) /\
  (f32_dot [1; 0]%Q [0; 1]%Q
     <= snd (hd pad_slot (Faiss.search _ f32_dot [[1; 0]; [0; 1]]%Q [1; 0]%Q 1)))%Q.
Proof.
  assert (Hn : ~ In 1%Z (map fst (Faiss.search _ f32_dot [[1; 0]; [0; 1]]%Q [1; 0]%Q 1)))
    by (vm_compute; intros [H | []]; discriminate).
  split; [exact Hn |].
  apply (proj2 (search_top_k _ f32_dot [[1; 0]; [0; 1]]%Q [1; 0]%Q 1 ltac:(lia) ltac:(lia))
           1%nat [0; 1]%Q eq_refl Hn).
  vm_compute. left. reflexivity.
Defined.

(** X2: for [0 < k < 100], when every stored vector scores above the
    sentinel -FLT_MAX, [index.search(q, k)] returns [min(k, N)] distinct
    stored positions with their scores, followed by [k - N] padding pairs
    [(-1, -FLT_MAX)]. *)
Theorem search_fills_min (V : Type) (ip : V -> V -> Q) (xb : list V) (q : V) (k : nat) :
  (0 < k)%nat -> (k < 100)%nat ->
  (forall x, In x xb -> (Faiss.neutral < ip q x)%Q) ->
  exists real, Faiss.search V ip xb q k = real ++ repeat pad_slot (k - length xb) /\
    length real = Nat.min k (length xb) /\ NoDup (map fst real) /\
    (forall s, In s real -> exists p x, nth_error xb p = Some x /\ s = (Z.of_nat p, ip q x)).
Proof.
  intros _ _ Hpos.
  destruct (shape_inv_search V ip q xb k Hpos) as (real & Hr & Hl & Hn & _ & Hs).
  exists real. auto.
Qed.

Lemma search_fills_min_witness :
  exists real, Faiss.search (list Q) f32_dot [[1; 0]; [0; 1]]%Q [0; 1]%Q 3
      = real ++ repeat pad_slot (3 - length [[1; 0]; [0; 1]]%Q) /\
    length real = Nat.min 3 (length [[1; 0]; [0; 1]]%Q) /\ NoDup (map fst real) /\
    (forall s, In s real -> exists p x, nth_error [[1; 0]; [0; 1]]%Q p = Some x /\
                                        s = (Z.of_nat p, f32_dot [0; 1]%Q x)).
Proof.
  apply search_fills_min; [lia | lia |].
  intros x [<- | [<- | []]]; vm_compute; reflexivity.
Defined.



(** ** sync_catalog *)

Lemma fs_keeps_refl {V} (m : fs V) : fs_keeps m m.
Proof. intros p f H; exact H. Qed.

Lemma fs_keeps_trans {V} (m1 m2 m3 : fs V) :
  fs_keeps m1 m2 -> fs_keeps m2 m3 -> fs_keeps m1 m3.
Proof. intros H1 H2 p f H; auto. Qed.

Lemma fs_keeps_write {V} (m m1 : fs V) p f :
  fs_keeps m m1 -> m p = None -> fs_keeps m (fs_write m1 p f).
Proof.
  intros H Hp p' f' H'. unfold fs_write.
  destruct (String.eqb_spec p' p) as [-> | _]; [congruence | auto].
Qed.

Lemma mkdirs_keeps {V} (m : fs V) ds : fs_keeps m (fst (mkdirs m ds)).
Proof.
  induction ds as [| d ds IH]; simpl; [apply fs_keeps_refl |].
  destruct (m d) as [f |] eqn:E; [destruct f; apply fs_keeps_refl |].
  destruct (mkdirs m ds) as [m1 [e |]]; simpl in *; [exact IH |].
  apply fs_keeps_write; assumption.
Qed.

Lemma cards_rows_ids join l : map row_id (cards_rows join l) = map fst l.
Proof. unfold cards_rows. rewrite map_map. reflexivity. Qed.

Lemma cards_rows_app join a b :
  cards_rows join (a ++ b) = cards_rows join a ++ cards_rows join b.
Proof. apply map_app. Qed.

Lemma first_cards_app seen a b :
  first_cards seen (a ++ b) =
  first_cards seen a ++ first_cards (seen ++ map fst (first_cards seen a)) b.
Proof.
  revert seen. induction a as [| d a IH]; intros seen; simpl; [rewrite app_nil_r; reflexivity |].
  destruct (card_id d) as [cid |]; [| apply IH].
  destruct (String.eqb cid EmptyString || existsb (String.eqb cid) seen); [apply IH |].
  simpl. rewrite IH, <- app_assoc. reflexivity.
Qed.

Lemma first_cards_ids seen cs :
  NoDup (map fst (first_cards seen cs)) /\
  forall x, In x (map fst (first_cards seen cs)) -> ~ In x seen /\ x <> EmptyString.
Proof.
  revert seen. induction cs as [| d cs IH]; intros seen; simpl; [split; [constructor | tauto] |].
  destruct (card_id d) as [cid |]; [| apply IH].
  destruct (String.eqb cid EmptyString || existsb (String.eqb cid) seen) eqn:E; [apply IH |].
  apply orb_false_iff in E as [E1 E2]. apply String.eqb_neq in E1.
  destruct (IH (seen ++ [cid])) as [Hn Hx]. simpl. split.
  - constructor; [| exact Hn].
    intros Hin. apply (proj1 (Hx _ Hin)). apply in_or_app; right; left; reflexivity.
  - intros x [<- | Hin].
    + split; [| exact E1]. intros Hin.
      assert (existsb (String.eqb cid) seen = true)
        by (apply existsb_exists; exists cid; split; [exact Hin | apply String.eqb_refl]).
      congruence.
    + destruct (Hx x Hin) as [Hs He].
      split; [intros H; apply Hs, in_or_app; left; exact H | exact He].
Qed.

Lemma first_cards_complete seen cs d cid :
  In d cs -> card_id d = Some cid -> cid <> EmptyString ->
  In cid (seen ++ map fst (first_cards seen cs)).
Proof.
  revert seen. induction cs as [| d' cs IH]; intros seen Hin Hd Hne; [destruct Hin |]. simpl.
  destruct Hin as [<- | Hin].
  - rewrite Hd.
    destruct (String.eqb cid EmptyString || existsb (String.eqb cid) seen) eqn:E.
    + apply orb_true_iff in E as [E | E]; [apply String.eqb_eq in E; contradiction |].
      apply existsb_exists in E as (x & Hx & Ex). apply String.eqb_eq in Ex. subst x.
      apply in_or_app; left; exact Hx.
    + apply in_or_app; right; left; reflexivity.
  - destruct (card_id d') as [cid' |]; [| apply IH; assumption].
    destruct (String.eqb cid' EmptyString || existsb (String.eqb cid') seen); [apply IH; assumption |].
    specialize (IH (seen ++ [cid']) Hin Hd Hne). simpl.
    rewrite <- app_assoc in IH. exact IH.
Qed.

Lemma first_cards_covered seen cs :
  (forall d cid, In d cs -> card_id d = Some cid -> cid <> EmptyString -> In cid seen) ->
  first_cards seen cs = [].
Proof.
  induction cs as [| d cs IH]; intros H; [reflexivity |]. simpl.
  destruct (card_id d) as [cid |] eqn:Ed; [| apply IH; intros; eapply H; eauto; right; assumption].
  destruct (String.eqb cid EmptyString || existsb (String.eqb cid) seen) eqn:E;
    [apply IH; intros; eapply H; eauto; right; assumption |].
  apply orb_false_iff in E as [E1 E2]. apply String.eqb_neq in E1.
  assert (existsb (String.eqb cid) seen = true)
    by (apply existsb_exists; exists cid; split;
        [eapply H; [left; reflexivity | exact Ed | exact E1] | apply String.eqb_refl]).
  congruence.
Qed.

Lemma firstn_exact {A} n (a b : list A) : length a = n -> firstn n (a ++ b) = a.
Proof. intros <-. rewrite firstn_app, firstn_all, Nat.sub_diag. apply app_nil_r. Qed.

Lemma nodup_firstn {A} n (l : list A) : NoDup l -> NoDup (firstn n l).
Proof.
  intros H. rewrite <- (firstn_skipn n l) in H. apply NoDup_app_remove_r in H. exact H.
Qed.

Lemma in_firstn {A} n (l : list A) x : In x (firstn n l) -> In x l.
Proof. intros H. rewrite <- (firstn_skipn n l). apply in_or_app; left; exact H. Qed.

Lemma nodup_map_filter {A B} (g : A -> B) f (l : list A) :
  NoDup (map g l) -> NoDup (map g (filter f l)).
Proof.
  induction l as [| x l IH]; intros H; simpl; [constructor |]. inversion H; subst.
  destruct (f x); [| auto]. simpl. constructor; [| auto].
  intros Hin. apply in_map_iff in Hin as (y & Hy & Hin). apply filter_In in Hin as [Hin _].
  apply H2. rewrite <- Hy. apply in_map; exact Hin.
Qed.

Section SyncProofs.
Variable V : Type.
Variable request : string -> Z -> Z -> result SyncError (list Card).
Variable download : string -> Download V.
Variable join : string -> string -> string.
Variable parent : string -> string.
Variable dir_chain : string -> list string.

Lemma fetch_image_keeps m local url :
  m local = None -> fs_keeps m (fst (fetch_image download parent dir_chain m local url)).
Proof.
  intros Hl. unfold fetch_image, mkdir_p.
  pose proof (mkdirs_keeps m (dir_chain (parent local))) as Hk.
  destruct (mkdirs m (dir_chain (parent local))) as [m1 [e |]]; simpl in *; [exact Hk |].
  destruct (download url); simpl; [apply fs_keeps_write; assumption | exact Hk |
                                   apply fs_keeps_write; assumption].
Qed.

Lemma fetch_if_missing_keeps m local d :
  fs_keeps m (fst (fetch_if_missing download parent dir_chain m local d)).
Proof.
  unfold fetch_if_missing.
  destruct (card_img_url d) as [url |]; [| apply fs_keeps_refl].
  destruct (truthy (Some url) && negb (path_exists m local)) eqn:E; [| apply fs_keeps_refl].
  apply fetch_image_keeps. apply andb_prop in E as [_ E]. unfold path_exists in E.
  destruct (m local); [discriminate | reflexivity].
Qed.

Lemma sync_batch_keeps limit batch st :
  fs_keeps (ss_fs st)
    (match sync_batch download join parent dir_chain limit batch st with
     | BatchDone st' | BatchBreak st' => ss_fs st'
     | BatchRaise m _ => m
     end).
Proof.
  revert st. induction batch as [| d batch IH]; intros st; simpl; [apply fs_keeps_refl |].
  destruct (card_id d) as [cid |]; [| apply IH].
  destruct (String.eqb cid EmptyString || existsb (String.eqb cid) (ss_seen st)); [apply IH |].
  pose proof (fetch_if_missing_keeps (ss_fs st) (card_local join cid d) d) as Hk.
  destruct (fetch_if_missing download parent dir_chain (ss_fs st) (card_local join cid d) d)
    as [m1 [e |]]; simpl in *; [exact Hk |].
  destruct (limit <=? ss_total st + 1); [exact Hk |].
  eapply fs_keeps_trans; [exact Hk | exact (IH (Build_SyncSt m1 _ _ _))].
Qed.

Lemma sync_pages_keeps fuel q ps limit page st m' res :
  sync_pages request download join parent dir_chain fuel q ps limit page st = Some (m', res) ->
  fs_keeps (ss_fs st) m'.
Proof.
  revert page st. induction fuel as [| fuel IH]; intros page st H; simpl in H;
    (destruct (ss_total st <? limit); [| injection H as <- _; apply fs_keeps_refl]);
    [discriminate |].
  destruct (request q page ps) as [[| c cs] | e];
    [injection H as <- _; apply fs_keeps_refl | | injection H as <- _; apply fs_keeps_refl].
  pose proof (sync_batch_keeps limit (c :: cs) st) as Hk.
  destruct (sync_batch download join parent dir_chain limit (c :: cs) st) as [st' | st' | m1 e].
  - eapply fs_keeps_trans; [exact Hk | exact (IH _ _ H)].
  - eapply fs_keeps_trans; [exact Hk | exact (IH _ _ H)].
  - injection H as <- _. exact Hk.
Qed.

Lemma sync_catalog_keeps fuel q ps limit m m' err :
  sync_catalog request download join parent dir_chain fuel q ps limit m = Some (m', err) ->
  forall p f, m p = Some f -> (p <> CSV_PATH \/ err <> None) -> m' p = Some f.
Proof.
  unfold sync_catalog, mkdir_p. intros H p f Hp Hc.
  pose proof (mkdirs_keeps m (dir_chain CATALOG_DIR)) as K1.
  destruct (mkdirs m (dir_chain CATALOG_DIR)) as [m1 [e |]]; simpl in K1;
    [injection H as <- _; auto |].
  pose proof (mkdirs_keeps m1 (dir_chain IMG_DIR)) as K2.
  destruct (mkdirs m1 (dir_chain IMG_DIR)) as [m2 [e |]]; simpl in K2;
    [injection H as <- _; auto |].
  destruct (sync_pages request download join parent dir_chain fuel q ps limit 1
              (Build_SyncSt m2 [] [] 0)) as [[m3 res] |] eqn:E; [| discriminate].
  pose proof (sync_pages_keeps _ _ _ _ _ _ _ _ E) as K3; simpl in K3.
  destruct res as [rows | e]; [| injection H as <- _; auto].
  destruct (m3 CSV_PATH) as [f3 |] eqn:E3; [destruct f3 |]; injection H as <- <-;
    try (apply K3, K2, K1, Hp);
    (destruct Hc as [Hc | Hc]; [| congruence]; unfold fs_write;
     destruct (String.eqb_spec p CSV_PATH); [congruence | apply K3, K2, K1, Hp]).
Qed.

Lemma sync_batch_spec limit batch st :
  ss_seen st = map row_id (ss_rows st) -> ss_total st = Z.of_nat (length (ss_rows st)) ->
  ss_total st < limit ->
  match sync_batch download join parent dir_chain limit batch st with
  | BatchDone st' =>
      ss_seen st' = map row_id (ss_rows st') /\ ss_total st' = Z.of_nat (length (ss_rows st')) /\
      ss_rows st' = ss_rows st ++ cards_rows join (first_cards (ss_seen st) batch) /\
      ss_total st' < limit
  | BatchBreak st' =>
      ss_seen st' = map row_id (ss_rows st') /\ ss_total st' = Z.of_nat (length (ss_rows st')) /\
      (exists pre post, first_cards (ss_seen st) batch = pre ++ post /\
                        ss_rows st' = ss_rows st ++ cards_rows join pre) /\
      ss_total st' = limit
  | BatchRaise _ _ => True
  end.
Proof.
  revert st. induction batch as [| d batch IH]; intros st Hs Ht Hl; simpl.
  - rewrite app_nil_r. auto.
  - destruct (card_id d) as [cid |]; [| apply IH; assumption].
    destruct (String.eqb cid EmptyString || existsb (String.eqb cid) (ss_seen st));
      [apply IH; assumption |].
    destruct (fetch_if_missing download parent dir_chain (ss_fs st) (card_local join cid d) d)
      as [m1 [e |]]; [exact I |].
    cbn [ss_total ss_rows ss_seen ss_fs].
    assert (Hs' : ss_seen st ++ [cid] = map row_id (ss_rows st ++ [card_row join cid d]))
      by (rewrite map_app, Hs; reflexivity).
    assert (Ht' : ss_total st + 1 = Z.of_nat (length (ss_rows st ++ [card_row join cid d])))
      by (rewrite length_app, Ht; simpl; lia).
    destruct (Z.leb_spec limit (ss_total st + 1)) as [Hb | Hb].
    + cbn. split; [exact Hs' | split; [exact Ht' | split; [| lia]]].
      exists [(cid, d)], (first_cards (ss_seen st ++ [cid]) batch). split; reflexivity.
    + generalize (IH (Build_SyncSt m1 (ss_rows st ++ [card_row join cid d])
                                   (ss_seen st ++ [cid]) (ss_total st + 1)) Hs' Ht' Hb).
      destruct (sync_batch download join parent dir_chain limit batch
                  (Build_SyncSt m1 (ss_rows st ++ [card_row join cid d])
                                (ss_seen st ++ [cid]) (ss_total st + 1))) as [s2 | s2 | m2 e2];
        cbn [ss_total ss_rows ss_seen ss_fs]; [| | tauto].
      * intros (H1 & H2 & H3 & H4). split; [exact H1 | split; [exact H2 | split; [| exact H4]]].
        rewrite H3, <- app_assoc. reflexivity.
      * intros (H1 & H2 & (pre & post & Hpp & Hr) & H4).
        split; [exact H1 | split; [exact H2 | split; [| exact H4]]].
        exists ((cid, d) :: pre), post. split; [rewrite Hpp; reflexivity |].
        rewrite Hr, <- app_assoc. reflexivity.
Qed.

Lemma sync_pages_done fuel q ps limit page st :
  limit <= ss_total st ->
  sync_pages request download join parent dir_chain fuel q ps limit page st
  = Some (ss_fs st, Ok (ss_rows st)).
Proof.
  intros H. destruct fuel; simpl; rewrite (proj2 (Z.ltb_ge _ _) H); reflexivity.
Qed.

Lemma sync_pages_spec q ps limit fuel page st m' rows :
  ss_seen st = map row_id (ss_rows st) -> ss_total st = Z.of_nat (length (ss_rows st)) ->
  (length (ss_rows st) <= Z.to_nat limit)%nat ->
  sync_pages request download join parent dir_chain fuel q ps limit page st = Some (m', Ok rows) ->
  exists batches,
    (forall j, (j < length batches)%nat -> request q (page + Z.of_nat j) ps = Ok (nth j batches [])) /\
    Forall (fun b => b <> []) batches /\
    rows = firstn (Z.to_nat limit)
                  (ss_rows st ++ cards_rows join (first_cards (ss_seen st) (concat batches))) /\
    (limit <= Z.of_nat (length rows) \/ request q (page + Z.of_nat (length batches)) ps = Ok []).
Proof.
  revert page st. induction fuel as [| fuel IH]; intros page st Hs Ht Hlen H;
    (destruct (Z.ltb_spec (ss_total st) limit) as [Hl | Hl];
     [| rewrite sync_pages_done in H by exact Hl; injection H as <- <-; exists []; simpl;
        rewrite app_nil_r, firstn_all2 by exact Hlen;
        split; [intros j Hj; simpl in Hj; lia | split; [constructor | split; [reflexivity | left; lia]]]]).
  - simpl in H. rewrite (proj2 (Z.ltb_lt _ _) Hl) in H. discriminate.
  - simpl in H. rewrite (proj2 (Z.ltb_lt _ _) Hl) in H.
    destruct (request q page ps) as [[| c cs] | e] eqn:Er; [| | discriminate].
    + injection H as <- <-. exists []. simpl. rewrite app_nil_r, firstn_all2 by lia.
      split; [intros j Hj; simpl in Hj; lia |].
      split; [constructor | split; [reflexivity | right; rewrite Z.add_0_r; exact Er]].
    + pose proof (sync_batch_spec limit (c :: cs) st Hs Ht Hl) as Hb.
      destruct (sync_batch download join parent dir_chain limit (c :: cs) st)
        as [st' | st' | m1 e]; [| | discriminate].
      * destruct Hb as (Hs' & Ht' & Hr' & Hl').
        destruct (IH (page + 1) st' Hs' Ht' ltac:(lia) H) as (bs & Hreq & Hne & Hrows & Hend).
        exists ((c :: cs) :: bs).
        split; [| split; [constructor; [discriminate | exact Hne] | split]].
        -- intros [| j] Hj; simpl; [rewrite Z.add_0_r; exact Er |].
           replace (page + Z.pos (Pos.of_succ_nat j)) with (page + 1 + Z.of_nat j) by lia.
           apply Hreq. simpl in Hj; lia.
        -- rewrite Hrows, Hs', Hr', map_app, cards_rows_ids, <- Hs. cbn [concat].
           rewrite first_cards_app, cards_rows_app, app_assoc. reflexivity.
        -- destruct Hend as [Hend | Hend]; [left; exact Hend | right].
           replace (page + Z.of_nat (length ((c :: cs) :: bs))) with (page + 1 + Z.of_nat (length bs))
             by (simpl length; lia).
           exact Hend.
      * destruct Hb as (Hs' & Ht' & (pre & post & Hpp & Hr') & Hl').
        rewrite sync_pages_done in H by lia. injection H as <- <-.
        exists [c :: cs].
        split; [intros [| j] Hj; [rewrite Z.add_0_r; exact Er | simpl in Hj; lia] |].
        split; [constructor; [discriminate | constructor] | split].
        -- simpl concat. rewrite app_nil_r, Hpp, cards_rows_app, app_assoc, <- Hr'.
           symmetry. apply firstn_exact. lia.
        -- left. lia.
Qed.

Lemma sync_catalog_rows fuel q ps limit m m' :
  sync_catalog request download join parent dir_chain fuel q ps limit m = Some (m', None) ->
  exists batches rows,
    m' CSV_PATH = Some (CsvFile rows) /\
    (forall j, (j < length batches)%nat -> request q (1 + Z.of_nat j) ps = Ok (nth j batches [])) /\
    Forall (fun b => b <> []) batches /\
    rows = firstn (Z.to_nat limit) (cards_rows join (first_cards [] (concat batches))) /\
    (limit <= Z.of_nat (length rows) \/ request q (1 + Z.of_nat (length batches)) ps = Ok []).
Proof.
  unfold sync_catalog, mkdir_p. intros H.
  destruct (mkdirs m (dir_chain CATALOG_DIR)) as [m1 [e |]]; [discriminate |].
  destruct (mkdirs m1 (dir_chain IMG_DIR)) as [m2 [e |]]; [discriminate |].
  destruct (sync_pages request download join parent dir_chain fuel q ps limit 1
              (Build_SyncSt m2 [] [] 0)) as [[m3 [rows | e]] |] eqn:E; try discriminate.
  destruct (sync_pages_spec q ps limit fuel 1 (Build_SyncSt m2 [] [] 0) m3 rows eq_refl eq_refl ltac:(simpl; lia) E)
    as (bs & Hreq & Hne & Hrows & Hend).
  exists bs, rows.
  destruct (m3 CSV_PATH) as [f |] eqn:E3; [destruct f |]; try discriminate; injection H as <-;
    (split; [unfold fs_write; rewrite String.eqb_refl; reflexivity | simpl in Hrows; auto]).
Qed.

End SyncProofs.

Section SyncTheorems.
Variable V : Type.
Variable request : string -> Z -> Z -> result SyncError (list Card).
Variable download : string -> Download V.
Variable join : string -> string -> string.
Variable parent : string -> string.
Variable dir_chain : string -> list string.

(** X5 (sync_catalog): after a successful sync, cards.csv holds, in API
    order, the row of the first card of each non-empty id of the pages
    fetched (pages 1, 2, ... each non-empty), cut at [limit] rows; the
    loop stopped because [limit] rows were collected or the next page was
    empty. *)
Theorem sync_rows_first_cards (fuel : nat) (q : string) (ps limit : Z) (m m' : fs V) :
  sync_catalog request download join parent dir_chain fuel q ps limit m = Some (m', None) ->
  exists batches rows,
    m' CSV_PATH = Some (CsvFile rows) /\
    (forall j, (j < length batches)%nat -> request q (1 + Z.of_nat j) ps = Ok (nth j batches [])) /\
    Forall (fun b => b <> []) batches /\
    rows = firstn (Z.to_nat limit) (cards_rows join (first_cards [] (concat batches))) /\
    (limit <= Z.of_nat (length rows) \/ request q (1 + Z.of_nat (length batches)) ps = Ok []).
Proof. apply sync_catalog_rows. Qed.

(** X6 (sync_catalog): after a successful sync, the ids in cards.csv are
    distinct and non-empty, and there are at most [limit] rows. *)
Theorem sync_ids_distinct (fuel : nat) (q : string) (ps limit : Z) (m m' : fs V) :
  sync_catalog request download join parent dir_chain fuel q ps limit m = Some (m', None) ->
  exists rows,
    m' CSV_PATH = Some (CsvFile rows) /\
    NoDup (map row_id rows) /\
    (forall r, In r rows -> row_id r <> EmptyString) /\
    (length rows <= Z.to_nat limit)%nat.
Proof.
  intros H. destruct (sync_catalog_rows _ _ _ _ _ _ _ _ _ _ _ _ H)
    as (bs & rows & Hcsv & _ & _ & Hrows & _).
  destruct (first_cards_ids [] (concat bs)) as [Hn Hx].
  exists rows. split; [exact Hcsv |]. subst rows.
  split; [| split].
  - rewrite <- firstn_map, cards_rows_ids. apply nodup_firstn, Hn.
  - intros r Hr. apply in_firstn in Hr.
    assert (Hi : In (row_id r) (map row_id (cards_rows join (first_cards [] (concat bs)))))
      by (apply in_map; exact Hr).
    rewrite cards_rows_ids in Hi. apply (Hx _ Hi).
  - apply firstn_le_length.
Qed.

(** X10 (sync_catalog): when the API answers every page with the same
    non-empty batch holding fewer distinct non-empty ids than [limit], the
    while loop never ends: the sync never completes, whatever the number of
    pages it is allowed to run. *)
Theorem sync_repeated_page_no_success (fuel : nat) (q : string) (ps limit : Z) (m m' : fs V)
        (b : list Card) :
  (forall page, request q page ps = Ok b) -> b <> [] ->
  Z.of_nat (length (first_cards [] b)) < limit ->
  sync_catalog request download join parent dir_chain fuel q ps limit m <> Some (m', None).
Proof.
  intros Hreq Hb Hlt H.
  destruct (sync_catalog_rows _ _ _ _ _ _ _ _ _ _ _ _ H)
    as (bs & rows & _ & Hbs & _ & Hrows & Hend).
  assert (Hall : forall x, In x bs -> x = b).
  { intros x Hx. apply In_nth with (d := []) in Hx as (j & Hj & <-).
    specialize (Hbs j Hj). rewrite Hreq in Hbs. injection Hbs as ->. reflexivity. }
  destruct Hend as [Hend | Hend]; [| rewrite Hreq in Hend; injection Hend as Hend; contradiction].
  assert (Hlen : (length (first_cards [] (concat bs)) <= length (first_cards [] b))%nat).
  { destruct bs as [| b0 bs]; [simpl; lia |].
    rewrite (Hall b0 (or_introl eq_refl)). cbn [concat]. rewrite first_cards_app.
    rewrite (first_cards_covered _ (concat bs)), app_nil_r; [lia |].
    intros d cid Hd Hc Hne. apply in_concat in Hd as (x & Hx & Hd).
    rewrite (Hall x (or_intror Hx)) in Hd.
    exact (first_cards_complete [] b d cid Hd Hc Hne). }
  assert (Hr : (length rows <= length (first_cards [] b))%nat).
  { rewrite Hrows, length_firstn. unfold cards_rows. rewrite length_map. lia. }
  lia.
Qed.

Section WithBuild.
Variable encode : list Z -> V.
Variable normalize : V -> V.

(** X11 (sync_catalog, build_index_inline): with [limit <= 0] the while
    loop does not run: no page is requested, so the outcome is the same
    for any API, and a successful sync writes a cards.csv without rows, on
    which a build fails its [assert len(df) > 0]. *)
Theorem sync_nonpositive_limit (fuel : nat) (q : string) (ps limit : Z) (m : fs V) :
  limit <= 0 ->
  (forall request' : string -> Z -> Z -> result SyncError (list Card),
     sync_catalog request' download join parent dir_chain fuel q ps limit m
     = sync_catalog request download join parent dir_chain fuel q ps limit m) /\
  (forall m', sync_catalog request download join parent dir_chain fuel q ps limit m = Some (m', None) ->
     m' CSV_PATH = Some (CsvFile []) /\ build_index_inline encode normalize m' = Err AssertNoRows).
Proof.
  intros Hl. split.
  - intros request'. unfold sync_catalog.
    destruct (mkdir_p dir_chain m CATALOG_DIR) as [m1 [e |]]; [reflexivity |].
    destruct (mkdir_p dir_chain m1 IMG_DIR) as [m2 [e |]]; [reflexivity |].
    rewrite !sync_pages_done by (simpl; lia). reflexivity.
  - intros m' H.
    destruct (sync_catalog_rows _ _ _ _ _ _ _ _ _ _ _ _ H)
      as (bs & rows & Hcsv & _ & _ & Hrows & _).
    replace (Z.to_nat limit) with 0%nat in Hrows by lia. simpl in Hrows. subst rows.
    split; [exact Hcsv |].
    unfold build_index_inline, read_csv. rewrite Hcsv. reflexivity.
Qed.

End WithBuild.
End SyncTheorems.

Lemma sync_rows_first_cards_witness :
  match sync_catalog demo_request demo_download demo_join demo_parent demo_chain
          5 "q" 40 80 fs_empty with
  | Some (m', None) =>
      exists batches rows, m' CSV_PATH = Some (CsvFile rows) /\
        rows = firstn (Z.to_nat 80) (cards_rows demo_join (first_cards [] (concat batches)))
  | _ => False
  end.
Proof.
  destruct (sync_catalog demo_request demo_download demo_join demo_parent demo_chain
              5 "q" 40 80 fs_empty) as [[m' [e |]] |] eqn:E;
    [vm_compute in E; discriminate | | vm_compute in E; discriminate].
  destruct (sync_rows_first_cards _ _ _ _ _ _ _ _ _ _ _ _ E)
    as (bs & rows & H1 & _ & _ & H2 & _).
  exists bs, rows. split; assumption.
Defined.

Lemma sync_ids_distinct_witness :
  match sync_catalog demo_request demo_download demo_join demo_parent demo_chain
          5 "q" 40 80 fs_empty with
  | Some (m', None) => exists rows, m' CSV_PATH = Some (CsvFile rows) /\ NoDup (map row_id rows)
  | _ => False
  end.
Proof.
  destruct (sync_catalog demo_request demo_download demo_join demo_parent demo_chain
              5 "q" 40 80 fs_empty) as [[m' [e |]] |] eqn:E;
    [vm_compute in E; discriminate | | vm_compute in E; discriminate].
  destruct (sync_ids_distinct _ _ _ _ _ _ _ _ _ _ _ _ E) as (rows & H1 & H2 & _).
  exists rows. split; assumption.
Defined.

Lemma sync_repeated_page_no_success_witness :
  (forall page, same_page_request "q" page 40 = Ok [card_a; card_a]) /\
  ([card_a; card_a] <> []) /\
  (Z.of_nat (length (first_cards [] [card_a; card_a])) < 2) /\
  (match sync_catalog same_page_request demo_download demo_join demo_parent
           demo_chain 10 "q" 40 2 fs_empty with
   | Some (_, None) => False
   | _ => True
   end).
Proof.
  assert (Hreq : forall page, same_page_request "q" page 40 = Ok [card_a; card_a])
    by (intros page; reflexivity).
  assert (Hb : [card_a; card_a] <> []) by discriminate.
  assert (Hlt : Z.of_nat (length (first_cards [] [card_a; card_a])) < 2)
    by (vm_compute; reflexivity).
  split; [exact Hreq | split; [exact Hb | split; [exact Hlt |]]].
  destruct (sync_catalog same_page_request demo_download demo_join demo_parent
              demo_chain 10 "q" 40 2 fs_empty) as [[m' [e |]] |] eqn:E; try exact I.
  exact (sync_repeated_page_no_success _ same_page_request demo_download demo_join
           demo_parent demo_chain 10 "q" 40 2 fs_empty m' [card_a; card_a] Hreq Hb Hlt E).
Defined.

Lemma sync_nonpositive_limit_witness :
  match sync_catalog demo_request demo_download demo_join demo_parent demo_chain
          5 "q" 40 0 fs_empty with
  | Some (m', None) =>
      m' CSV_PATH = Some (CsvFile []) /\
      build_index_inline enc32 f32_normalize m' = Err AssertNoRows
  | _ => False
  end.
Proof.
  destruct (sync_catalog demo_request demo_download demo_join demo_parent demo_chain
              5 "q" 40 0 fs_empty) as [[m' [e |]] |] eqn:E;
    [vm_compute in E; discriminate | | vm_compute in E; discriminate].
  apply (proj2 (sync_nonpositive_limit _ demo_request demo_download demo_join demo_parent
                  demo_chain enc32 f32_normalize 5 "q" 40 0 fs_empty ltac:(lia)) m' E).
Defined.
